(** * seamove.cmove: a continuous file mover

    Shallow embedding of [src/seamove/cmove.py] and of the parts of the
    Python runtime it calls (os.path, shutil.move, os.remove, pathlib's
    glob, ThreadPoolExecutor, rich's Progress, argparse's exit codes),
    followed by the properties of the mover that the specification states.

    Layout: the platform and the filesystem; the exception/state monad in
    which [_move] is written; the thread pool and the main loop as a
    labelled transition system; then the theorems. *)

From stdpp Require Import gmap strings list fin_maps.
From Stdlib Require Import ZArith.

Local Open Scope Z_scope.


(** ** Platform and filesystem *)

(** A path is the list of its components below the root, so that
    [os.path.join(d, name)] is [d ++ [name]].  [str(path)] is the identity. *)
Abbreviation path := (list string).

Inductive kind := KFile | KDir | KSpecial.

(** A directory entry.  A symbolic link records what following it yields
    ([None] for a dangling link), which is all that os.path looks at. *)
Inductive node :=
| File (content : string)
| Dir
| Special
| Symlink (resolves_to : option kind).

Abbreviation filesystem := (gmap (list string) node).

(** What the operating system does on its own account. *)
Class Platform := {
  (** errno detail with which the kernel refuses to relocate [src] to [dst]
      (EACCES, ENOSPC, EXDEV with a failing copy, ...), if it does *)
  os_fault : path → path → option string;
  (** [os.cpu_count()] *)
  cpu_count : option nat
}.

#[global] Instance kind_eq_dec : EqDecision kind.
Proof. solve_decision. Defined.

#[global] Instance node_eq_dec : EqDecision node.
Proof. solve_decision. Defined.

(** [os.stat]: follows symbolic links. *)
Definition stat (n : node) : option kind :=
  match n with
  | File _ => Some KFile
  | Dir => Some KDir
  | Special => Some KSpecial
  | Symlink k => k
  end.

Definition stat_path (fs : filesystem) (p : path) : option kind :=
  fs !! p ≫= stat.

(** [os.path.lexists], [os.path.exists], [os.path.isfile], [os.path.isdir] *)
Definition lexists (fs : filesystem) (p : path) : bool :=
  bool_decide (is_Some (fs !! p)).

Definition path_exists (fs : filesystem) (p : path) : bool :=
  bool_decide (is_Some (stat_path fs p)).

Definition isfile (fs : filesystem) (p : path) : bool :=
  bool_decide (stat_path fs p = Some KFile).

Definition isdir (fs : filesystem) (p : path) : bool :=
  bool_decide (stat_path fs p = Some KDir).

(** [shutil._basename] and the directory a path lies in. *)
Definition basename (p : path) : string := default "" (last p).

Definition parent (p : path) : path := take (length p - 1)%nat p.

(** [p] is an immediate entry of directory [d]. *)
Definition entry_of (d p : path) : bool := bool_decide (p = d ++ [basename p]).

(** [p] lies in the subtree rooted at [d] (at any depth, [d] included). *)
Definition under (d p : path) : bool := bool_decide (d `prefix_of` p).

(** [Path.glob("*")]: one scandir of the directory, every name matches;
    nothing is yielded when the path is not a directory. *)
Definition glob (fs : filesystem) (d : path) : list path :=
  if isdir fs d then filter (λ p, entry_of d p = true) (map_to_list fs).*1
  else [].

(** ** Exceptions, state, and the monad of the engine *)

(** [shutil.Error] derives from [OSError]; [OSError] below stands for the
    OS errors that are not [shutil.Error]. *)
Inductive exn :=
| shutil_Error (msg : string)
| OSError (detail : string)
| ValueError (msg : string)
| SystemExit (code : option Z).

Inductive result (A : Type) :=
| Ret (a : A)
| Raise (e : exn).
Arguments Ret {A} a.
Arguments Raise {A} e.

Inductive level := INFO | WARNING | ERROR.

(** The three messages the module logs, with the paths they interpolate. *)
Inductive message :=
| moved_to_destination (file dest : path)
| already_exist_in_destination (file : path)
| is_not_a_directory (tmp : path).

Record log_record := { levelno : level; msg : message }.

#[global] Instance level_eq_dec : EqDecision level.
Proof. solve_decision. Defined.

Record world := { w_fs : filesystem; w_log : list log_record }.

Definition M (A : Type) : Type := world → result A * world.

Definition ret {A} (a : A) : M A := λ w, (Ret a, w).

Definition raise {A} (e : exn) : M A := λ w, (Raise e, w).

Definition bind {A B} (k : A → M B) (m : M A) : M B :=
  λ w, match m w with
       | (Ret a, w') => k a w'
       | (Raise e, w') => (Raise e, w')
       end.

#[global] Instance M_ret : MRet M := @ret.
#[global] Instance M_bind : MBind M := @bind.

(** [try: body  except C: handler], where [catches e] says that [e] is an
    instance of [C].  Effects of [body] before the raise are kept. *)
Definition try_except {A} (body : M A) (catches : exn → bool) (handler : M A) : M A :=
  λ w, match body w with
       | (Raise e, w') => if catches e then handler w' else (Raise e, w')
       | r => r
       end.

Definition get_fs : M filesystem := λ w, (Ret (w_fs w), w).

Definition put_fs (fs : filesystem) : M unit :=
  λ w, (Ret tt, {| w_fs := fs; w_log := w_log w |}).

Definition emit (l : level) (m : message) : M unit :=
  λ w, (Ret tt, {| w_fs := w_fs w;
                   w_log := w_log w ++ [{| levelno := l; msg := m |}] |}).

Definition log_info := emit INFO.
Definition log_warning := emit WARNING.
Definition log_error := emit ERROR.

Definition is_shutil_Error (e : exn) : bool :=
  match e with shutil_Error _ => true | _ => false end.

(** ** os and shutil primitives *)

(** Re-root the subtree at [src] to [dst] (renaming a directory). *)
Definition reroot (src dst : path) (fs : filesystem) : filesystem :=
  list_to_map
    (omap (λ kv, if under src kv.1
                 then Some (dst ++ drop (length src) kv.1, kv.2) else None)
          (map_to_list fs))
  ∪ filter (λ kv, under src kv.1 = false) fs.

(** [os.rename(src, dst)].  A non-directory replaces whatever
    non-directory is at [dst]; a directory moves with its subtree to a free
    name.  The relocation is all-or-nothing: when the kernel refuses
    ([os_fault]) the filesystem is left as it was. *)
Definition os_rename `{Platform} (src dst : path) : M unit :=
  fs ← get_fs;
  match fs !! src with
  | None => raise (OSError "ENOENT")
  | Some n =>
    if negb (isdir fs (parent dst)) then raise (OSError "ENOENT")
    else match os_fault src dst with
    | Some detail => raise (OSError detail)
    | None =>
      if bool_decide (src = dst) then mret tt
      else match n, fs !! dst with
      | Dir, None =>
        if under src dst then raise (OSError "EINVAL")
        else put_fs (reroot src dst fs)
      | Dir, Some _ => raise (OSError "ENOTEMPTY")
      | _, Some Dir => raise (OSError "EISDIR")
      | _, _ => put_fs (<[dst := n]> (delete src fs))
      end
    end
  end.

(** [os.remove(file)] *)
Definition os_remove (file : path) : M unit :=
  fs ← get_fs;
  match fs !! file with
  | None => raise (OSError "ENOENT")
  | Some Dir => raise (OSError "EISDIR")
  | Some _ => put_fs (delete file fs)
  end.

(** [shutil._samefile]: same inode; [False] when a stat fails. *)
Definition _samefile (fs : filesystem) (src dst : path) : bool :=
  path_exists fs src && bool_decide (src = dst).

(** [shutil.move(src, dst)], with the copy-and-unlink fallback folded into
    the all-or-nothing [os_rename]. *)
Definition shutil_move `{Platform} (src dst : path) : M path :=
  fs ← get_fs;
  if isdir fs dst then
    if _samefile fs src dst then (os_rename src dst;; mret dst)
    else
      let real_dst := dst ++ [basename src] in
      if path_exists fs real_dst
      then raise (shutil_Error "Destination path already exists")
      else (os_rename src real_dst;; mret real_dst)
  else (os_rename src dst;; mret dst).

(** ** The worker: [_move], nested in [cmove] *)

(** Move file from a to b and remove from a if already in b *)
Definition _move `{Platform} (file dest : path) : M unit :=
  try_except
    (shutil_move file dest;;
     log_info (moved_to_destination file dest))
    is_shutil_Error
    (log_warning (already_exist_in_destination file);;
     os_remove file).

(** ** [wait] and rich's [Progress] *)

(** A task of [rich.progress.Progress]: [finished_time] is set by the
    first [update] that finds [completed >= total], never by [add_task]. *)
Record rich_task := { total : Z; completed : Z; finished_time : option Z }.

Definition add_task (total : Z) : rich_task :=
  {| total := total; completed := 0; finished_time := None |}.

Definition update (t : rich_task) (advance elapsed : Z) : rich_task :=
  let c := completed t + advance in
  {| total := total t;
     completed := c;
     finished_time :=
       match finished_time t with
       | None => if total t <=? c then Some elapsed else None
       | Some ft => Some ft
       end |}.

Definition finished (t : rich_task) : bool :=
  bool_decide (is_Some (finished_time t)).

(** [while not progress.finished: progress.update(task, advance=1);
    time.sleep(1)], returning the seconds slept; [fuel] bounds the number
    of iterations. *)
Fixpoint wait_loop (fuel : nat) (t : rich_task) (slept : Z) : option Z :=
  match fuel with
  | O => None
  | S fuel' =>
    if finished t then Some slept
    else wait_loop fuel' (update t 1 slept) (slept + 1)
  end.

(** Python truth value of an optional integer. *)
Definition truthy (n : option Z) : bool :=
  match n with
  | None => false
  | Some z => negb (z =? 0)
  end.

(** Wait for n sec, and show the wait progress.  The result is the time
    spent sleeping. *)
Definition wait (fuel : nat) (seconds : option Z) : option Z :=
  if negb (truthy seconds) then Some 0
  else wait_loop fuel (add_task (default 0 seconds)) 0.

(** ** The thread pool *)

(** [(os.cpu_count() or 1)] *)
Definition cpu_count_or_1 `{Platform} : Z :=
  match cpu_count with
  | Some (S n) => Z.of_nat (S n)
  | _ => 1
  end.

(** [ThreadPoolExecutor.__init__]: the pool size, or the constructor's
    [ValueError]. *)
Definition ThreadPoolExecutor `{Platform} (max_workers : option Z) : result Z :=
  let max_workers :=
    match max_workers with
    | None => Z.min 32 (cpu_count_or_1 + 4)
    | Some n => n
    end in
  if max_workers <=? 0
  then Raise (ValueError "max_workers must be greater than 0")
  else Ret max_workers.

(** A work item [executor.submit(_move, file, destination)], tagged with
    the number of the [cmove] call whose executor it was submitted to. *)
Record task := { t_batch : nat; t_file : path; t_dest : path }.

#[global] Instance task_eq_dec : EqDecision task.
Proof. solve_decision. Defined.

(** ** The process: [main]'s loop, [cmove] and the worker threads *)

(** Where the main thread is. *)
Inductive control :=
| LoopTop                       (* [while True:], about to call [cmove] *)
| Filtering (rest : list path)  (* in the [with] block, [rest] left to filter *)
| Shutdown                      (* [executor.__exit__]: [shutdown(wait=True)] *)
| Waiting                       (* [cmove] returned, about to call [wait] *)
| Exited (status : Z).

Record proc := {
  p_world : world;
  p_clock : Z;                             (* seconds spent in [time.sleep] *)
  p_batch : nat;                           (* number of [cmove] calls so far *)
  p_main : control;
  p_queue : list task;                     (* submitted, not yet started *)
  p_running : list task;                   (* picked up by a worker thread *)
  p_futures : list (task * result unit)    (* completed, with their outcome *)
}.

Inductive label :=
| L_enter (max_workers : Z)
| L_crash (e : exn)
| L_skip (file : path)
| L_submit (t : task)
| L_exhausted
| L_start (t : task)
| L_finish (t : task) (r : result unit)
| L_return
| L_wait (slept : Z)
| L_interrupt.

#[global] Instance exn_eq_dec : EqDecision exn.
Proof. solve_decision. Defined.

#[global] Instance result_eq_dec `{EqDecision A} : EqDecision (result A).
Proof. solve_decision. Defined.

#[global] Instance label_eq_dec : EqDecision label.
Proof. solve_decision. Defined.

(** Exit status of the interpreter when [e] reaches the top level:
    [SystemExit]'s code ([None] counts as success), 1 with a traceback for
    any other exception. *)
Definition exit_status (e : exn) : Z :=
  match e with
  | SystemExit None => 0
  | SystemExit (Some c) => c
  | _ => 1
  end.

(** Tasks of [l] that belong to the executor of batch [k]. *)
Definition of_batch (k : nat) (l : list task) : list task :=
  filter (λ t, t_batch t = k) l.

Definition set_main (s : proc) (c : control) : proc :=
  {| p_world := p_world s; p_clock := p_clock s; p_batch := p_batch s;
     p_main := c; p_queue := p_queue s; p_running := p_running s;
     p_futures := p_futures s |}.

Section Process.
Context `{Platform}.
(** The arguments [main] passes to [cmove] and [wait] on every iteration. *)
Variables (target destination : path) (threads seconds : option Z).

(** The work item of [executor.submit(_move, file, destination)]. *)
Definition submitted (s : proc) (file : path) : task :=
  {| t_batch := p_batch s; t_file := file; t_dest := destination |}.

(** One atomic step of the process.  The main thread runs
    [while True: cmove(...); wait(...)] inside [try ... except
    KeyboardInterrupt: raise SystemExit()]; worker threads start and finish
    queued work items at any moment in between.  A work item takes effect
    at the step that finishes it, and its outcome, an exception included,
    is stored in its future, which [cmove] never reads. *)
Inductive step : proc → label → proc → Prop :=
| step_enter s mw :
    p_main s = LoopTop →
    ThreadPoolExecutor threads = Ret mw →
    step s (L_enter mw)
      {| p_world := p_world s; p_clock := p_clock s;
         p_batch := S (p_batch s);
         p_main := Filtering (glob (w_fs (p_world s)) target);
         p_queue := p_queue s; p_running := p_running s;
         p_futures := p_futures s |}
| step_crash s e :
    p_main s = LoopTop →
    ThreadPoolExecutor threads = Raise e →
    step s (L_crash e) (set_main s (Exited (exit_status e)))
| step_skip s file rest :
    p_main s = Filtering (file :: rest) →
    isfile (w_fs (p_world s)) file = false →
    step s (L_skip file) (set_main s (Filtering rest))
| step_submit s file rest :
    p_main s = Filtering (file :: rest) →
    isfile (w_fs (p_world s)) file = true →
    step s (L_submit (submitted s file))
      {| p_world := p_world s; p_clock := p_clock s; p_batch := p_batch s;
         p_main := Filtering rest;
         p_queue := p_queue s ++ [submitted s file]; p_running := p_running s;
         p_futures := p_futures s |}
| step_exhausted s :
    p_main s = Filtering [] →
    step s L_exhausted (set_main s Shutdown)
| step_start s q1 t q2 mw :
    p_queue s = q1 ++ t :: q2 →
    ThreadPoolExecutor threads = Ret mw →
    Z.of_nat (length (of_batch (t_batch t) (p_running s))) < mw →
    step s (L_start t)
      {| p_world := p_world s; p_clock := p_clock s; p_batch := p_batch s;
         p_main := p_main s;
         p_queue := q1 ++ q2; p_running := t :: p_running s;
         p_futures := p_futures s |}
| step_finish s r1 t r2 r w' :
    p_running s = r1 ++ t :: r2 →
    _move (t_file t) (t_dest t) (p_world s) = (r, w') →
    step s (L_finish t r)
      {| p_world := w'; p_clock := p_clock s; p_batch := p_batch s;
         p_main := p_main s;
         p_queue := p_queue s; p_running := r1 ++ r2;
         p_futures := p_futures s ++ [(t, r)] |}
| step_return s :
    p_main s = Shutdown →
    of_batch (p_batch s) (p_queue s) = [] →
    of_batch (p_batch s) (p_running s) = [] →
    step s L_return (set_main s Waiting)
| step_wait s fuel slept :
    p_main s = Waiting →
    wait fuel seconds = Some slept →
    step s (L_wait slept)
      {| p_world := p_world s; p_clock := p_clock s + slept;
         p_batch := p_batch s;
         p_main := LoopTop;
         p_queue := p_queue s; p_running := p_running s;
         p_futures := p_futures s |}
| step_interrupt s :
    (∀ st, p_main s ≠ Exited st) →
    step s L_interrupt (set_main s (Exited (exit_status (SystemExit None)))).

(** The step relation is deterministic once the label is given: this is
    its successor function, used to replay a schedule. *)
Fixpoint remove_first (t : task) (l : list task) : option (list task) :=
  match l with
  | [] => None
  | x :: l' =>
    if decide (x = t) then Some l' else cons x <$> remove_first t l'
  end.

Definition step_fn (s : proc) (l : label) : option proc :=
  match l, p_main s with
  | L_enter mw, LoopTop =>
    if decide (ThreadPoolExecutor threads = Ret mw) then
      Some {| p_world := p_world s; p_clock := p_clock s;
              p_batch := S (p_batch s);
              p_main := Filtering (glob (w_fs (p_world s)) target);
              p_queue := p_queue s; p_running := p_running s;
              p_futures := p_futures s |}
    else None
  | L_crash e, LoopTop =>
    if decide (ThreadPoolExecutor threads = Raise e)
    then Some (set_main s (Exited (exit_status e))) else None
  | L_skip f, Filtering (file :: rest) =>
    if decide (f = file) then
      if isfile (w_fs (p_world s)) file then None
      else Some (set_main s (Filtering rest))
    else None
  | L_submit t, Filtering (file :: rest) =>
    if decide (t = submitted s file) then
      if isfile (w_fs (p_world s)) file then
        Some {| p_world := p_world s; p_clock := p_clock s;
                p_batch := p_batch s; p_main := Filtering rest;
                p_queue := p_queue s ++ [submitted s file];
                p_running := p_running s; p_futures := p_futures s |}
      else None
    else None
  | L_exhausted, Filtering [] => Some (set_main s Shutdown)
  | L_start t, _ =>
    match remove_first t (p_queue s), ThreadPoolExecutor threads with
    | Some q, Ret mw =>
      if decide (Z.of_nat (length (of_batch (t_batch t) (p_running s))) < mw)
      then Some {| p_world := p_world s; p_clock := p_clock s;
                   p_batch := p_batch s; p_main := p_main s;
                   p_queue := q; p_running := t :: p_running s;
                   p_futures := p_futures s |}
      else None
    | _, _ => None
    end
  | L_finish t r, _ =>
    match remove_first t (p_running s) with
    | Some run =>
      if decide (r = (_move (t_file t) (t_dest t) (p_world s)).1) then
        Some {| p_world := (_move (t_file t) (t_dest t) (p_world s)).2;
                p_clock := p_clock s; p_batch := p_batch s;
                p_main := p_main s; p_queue := p_queue s; p_running := run;
                p_futures := p_futures s ++ [(t, r)] |}
      else None
    | None => None
    end
  | L_return, Shutdown =>
    if decide (of_batch (p_batch s) (p_queue s) = []
               ∧ of_batch (p_batch s) (p_running s) = [])
    then Some (set_main s Waiting) else None
  | L_wait slept, Waiting =>
    if decide (wait (S (S (Z.to_nat (default 0 seconds)))) seconds = Some slept)
    then Some {| p_world := p_world s; p_clock := p_clock s + slept;
                 p_batch := p_batch s; p_main := LoopTop;
                 p_queue := p_queue s; p_running := p_running s;
                 p_futures := p_futures s |}
    else None
  | L_interrupt, Exited _ => None
  | L_interrupt, _ =>
    Some (set_main s (Exited (exit_status (SystemExit None))))
  | _, _ => None
  end.

Fixpoint replay (s : proc) (tr : list label) : option proc :=
  match tr with
  | [] => Some s
  | l :: tr' =>
    match step_fn s l with
    | Some s' => replay s' tr'
    | None => None
    end
  end.

(** Executions, with the labels of their steps in order. *)
Inductive exec : proc → list label → proc → Prop :=
| exec_nil s : exec s [] s
| exec_snoc s tr s1 l s2 :
    exec s tr s1 → step s1 l s2 → exec s (tr ++ [l]) s2.

End Process.

(** The process as [main] enters its loop. *)
Definition boot (w : world) : proc :=
  {| p_world := w; p_clock := 0; p_batch := 0; p_main := LoopTop;
     p_queue := []; p_running := []; p_futures := [] |}.

(** ** Start-up: [cli], [dir_validator] and the head of [main] *)

(** The command line as argparse receives it; a positional argument may be
    missing. *)
Record argv := {
  a_target : option path;
  a_destination : option path;
  a_sleep : option Z;
  a_threads : option Z;
  a_quiet : nat;
  a_log : option string
}.

(** The namespace [parse_args] returns. *)
Record Namespace := {
  target : option path;
  destination : option path;
  sleep : option Z;
  threads : option Z;
  quiet : nat;
  log : option string
}.

(** Test is dir and return Path object *)
Definition dir_validator (directory : path) : M (option path) :=
  let tmp := directory in            (* [Path(directory).resolve()] *)
  fs ← get_fs;
  if isdir fs tmp then mret (Some tmp)
  else log_error (is_not_a_directory tmp);; mret None.

(** [cli().parse_args()]: argparse converts the positionals with
    [dir_validator] in order and exits with status 2 when one is missing. *)
Definition parse_args (av : argv) : M Namespace :=
  match a_target av with
  | None => raise (SystemExit (Some 2))
  | Some t =>
    tv ← dir_validator t;
    match a_destination av with
    | None => raise (SystemExit (Some 2))
    | Some d =>
      dv ← dir_validator d;
      mret {| target := tv; destination := dv; sleep := a_sleep av;
              threads := a_threads av; quiet := a_quiet av; log := a_log av |}
    end
  end.

(** [{0: INFO, 1: WARNING}.get(args.quiet, ERROR)] *)
Definition setLevel (quiet : nat) : level :=
  match quiet with
  | O => INFO
  | S O => WARNING
  | _ => ERROR
  end.

(** [logging]'s numeric levels, and the records a logger set with
    [log.setLevel(setLevel quiet)] passes on to its handlers; the log of a
    world is the sequence of logging calls, before this filter. *)
Definition severity (l : level) : nat :=
  match l with
  | INFO => 20
  | WARNING => 30
  | ERROR => 40
  end.

Definition handled (quiet : nat) (records : list log_record) : list log_record :=
  filter (λ rec, (severity (setLevel quiet) ≤ severity (levelno rec))%nat)
         records.

(** [main] up to its loop: parse, then
    [if not (args.target and args.destination): raise SystemExit()]. *)
Definition main_head (av : argv) : M Namespace :=
  args ← parse_args av;
  if negb (bool_decide (is_Some (target args))
           && bool_decide (is_Some (destination args)))
  then raise (SystemExit None)
  else mret args.

(** A run of [main]: either the head exits, or the loop is entered with the
    validated arguments. *)
Inductive main_runs `{Platform} (av : argv) (w : world) : list label → proc → Prop :=
| main_exits e w' :
    main_head av w = (Raise e, w') →
    main_runs av w [] (set_main (boot w') (Exited (exit_status e)))
| main_loops args w' t d tr s :
    main_head av w = (Ret args, w') →
    target args = Some t →
    destination args = Some d →
    exec t d (threads args) (sleep args) (boot w') tr s →
    main_runs av w tr s.

(** ** Vocabulary of the properties *)

(** An entry called [name] is visible in directory [d] ([os.path.exists]). *)
Definition present_in (fs : filesystem) (d : path) (name : string) : bool :=
  path_exists fs (d ++ [name]).

(** Work items that have been submitted and have not finished. *)
Definition live (s : proc) : list task := p_queue s ++ p_running s.

(** Every unfinished work item belongs to the executor of the current
    [cmove] call, and there is none while the main thread is between two
    calls. *)
Definition isolated (s : proc) : Prop :=
  (∀ t, t ∈ live s → t_batch t = p_batch s) ∧
  (p_main s = LoopTop ∨ p_main s = Waiting → live s = []).

(** Every work item submitted along [tr] is queued, running or finished. *)
Definition accounted (tr : list label) (s : proc) : Prop :=
  ∀ t, L_submit t ∈ tr →
       t ∈ p_queue s ∨ t ∈ p_running s ∨ ∃ r, L_finish t r ∈ tr.

(** The futures hold the outcomes of the work items finished along [tr]. *)
Definition recorded (tr : list label) (s : proc) : Prop :=
  ∀ t r, L_finish t r ∈ tr ↔ (t, r) ∈ p_futures s.

(** A platform on which the kernel refuses nothing, and one whose storage
    rejects every relocation. *)
Definition reliable : Platform :=
  {| os_fault := λ _ _, None; cpu_count := Some 4%nat |}.

Definition read_only : Platform :=
  {| os_fault := λ _ _, Some "EACCES"; cpu_count := Some 4%nat |}.

(** The filesystem of the scenarios: a source directory with regular
    files, a subdirectory, a link to a file, a link to a directory, a
    dangling link and a fifo; a destination that already holds [c.txt]. *)
Definition scenario_fs : filesystem :=
  list_to_map
    [ (["src"], Dir); (["dst"], Dir);
      (["src"; "a.txt"], File "alpha");
      (["src"; "c.txt"], File "gamma");
      (["src"; "sub"], Dir);
      (["src"; "sub"; "deep.txt"], File "delta");
      (["src"; "link"], Symlink (Some KFile));
      (["src"; "dirlink"], Symlink (Some KDir));
      (["src"; "dangling"], Symlink None);
      (["src"; "fifo"], Special);
      (["dst"; "c.txt"], File "gamma") ].

Definition scenario : world := {| w_fs := scenario_fs; w_log := [] |}.

(** Labels of the steps taken inside one [cmove] call, by the main thread
    or by the workers. *)
Definition in_batch (l : label) : bool :=
  match l with
  | L_skip _ | L_submit _ | L_exhausted | L_start _ | L_finish _ _
  | L_return => true
  | _ => false
  end.

(** Steps a [cmove] call still has to take, at most. *)
Definition remaining (s : proc) : nat :=
  match p_main s with
  | Filtering rest => 3 * length rest + 2
  | Shutdown => 1
  | _ => 0
  end + 2 * length (p_queue s) + length (p_running s).

(** The first scenario of the specification: two files to move into an
    empty destination. *)
Definition two_files_fs : filesystem :=
  list_to_map
    [ (["src"], Dir); (["dst"], Dir);
      (["src"; "a.txt"], File "alpha");
      (["src"; "b.txt"], File "beta") ].

Definition two_files : world := {| w_fs := two_files_fs; w_log := [] |}.

Definition task_a : task :=
  {| t_batch := 1; t_file := ["src"; "a.txt"]; t_dest := ["dst"] |}.

Definition task_b : task :=
  {| t_batch := 1; t_file := ["src"; "b.txt"]; t_dest := ["dst"] |}.

(** A schedule of the first scenario with two workers: both files are in
    flight at once and finish in the other order; the pool is drained and
    [cmove] is about to return. *)
Definition two_files_batch : list label :=
  [ L_submit task_b; L_start task_b; L_submit task_a;
    L_start task_a; L_exhausted;
    L_finish task_a (Ret tt); L_finish task_b (Ret tt) ].

Definition two_files_schedule : list label := L_enter 2 :: two_files_batch.

Definition two_files_entered : proc :=
  {| p_world := two_files; p_clock := 0; p_batch := 1;
     p_main := Filtering [["src"; "b.txt"]; ["src"; "a.txt"]];
     p_queue := []; p_running := []; p_futures := [] |}.

Definition two_files_moved : world :=
  {| w_fs := list_to_map
       [ (["src"], Dir); (["dst"], Dir);
         (["dst"; "a.txt"], File "alpha");
         (["dst"; "b.txt"], File "beta") ];
     w_log :=
       [ {| levelno := INFO;
            msg := moved_to_destination ["src"; "a.txt"] ["dst"] |};
         {| levelno := INFO;
            msg := moved_to_destination ["src"; "b.txt"] ["dst"] |} ] |}.

Definition two_files_drained : proc :=
  {| p_world := two_files_moved; p_clock := 0; p_batch := 1;
     p_main := Shutdown; p_queue := []; p_running := [];
     p_futures := [(task_a, Ret tt); (task_b, Ret tt)] |}.

(** The directories of [fs], and the links to directories, are those of
    [fs'], under the same names. *)
Definition same_dirs (fs fs' : filesystem) : Prop :=
  ∀ p n, stat n = Some KDir → (fs' !! p = Some n ↔ fs !! p = Some n).

(** Since the loop began in world [w], no directory has moved and no
    unfinished work item is about one. *)
Definition dirs_kept (w : world) (s : proc) : Prop :=
  same_dirs (w_fs w) (w_fs (p_world s)) ∧
  (∀ t, t ∈ live s → stat_path (w_fs w) (t_file t) ≠ Some KDir).

(** The scan of the mixed scenario, arrived at the link to a file. *)
Definition task_c : task :=
  {| t_batch := 1; t_file := ["src"; "c.txt"]; t_dest := ["dst"] |}.

Definition task_link : task :=
  {| t_batch := 1; t_file := ["src"; "link"]; t_dest := ["dst"] |}.

Definition scan_prefix : list label :=
  [ L_enter 8; L_submit task_c; L_submit task_a; L_skip ["src"; "fifo"] ].

Definition scan_at_link : proc :=
  {| p_world := scenario; p_clock := 0; p_batch := 1;
     p_main := Filtering [ ["src"; "link"]; ["src"; "dirlink"];
                           ["src"; "dangling"]; ["src"; "sub"] ];
     p_queue := [task_c; task_a]; p_running := []; p_futures := [] |}.

(** What the main thread still has to filter. *)
Definition entries (s : proc) : list path :=
  match p_main s with
  | Filtering rest => rest
  | _ => []
  end.

Definition batch_task (k : nat) (destination file : path) : task :=
  {| t_batch := k; t_file := file; t_dest := destination |}.

(** The two ways a work item about [name] leaves the two directories:
    returned and the name is in the destination only, or raised and the
    name is in the source only. *)
Definition settled (fs : filesystem) (source dest : path) (name : string)
    (r : result unit) : Prop :=
  (r = Ret tt ∧
   present_in fs source name = false ∧ present_in fs dest name = true) ∨
  (∃ e, r = Raise e ∧
   present_in fs source name = true ∧ present_in fs dest name = false).

(** The state [s] of a [cmove] call that began in [se], after the steps
    [tr]: what the workers have done so far has not touched the entries
    still to filter, nor the files of the work items still unfinished. *)
Record scanning (target destination : path)
    (se : proc) (tr : list label) (s : proc) : Prop := {
  sc_batch : p_batch s = p_batch se;
  sc_nodup : NoDup (entries se);
  sc_entry : ∀ f, f ∈ entries se → ∃ n, f = target ++ [n];
  sc_suffix : ∃ checked, entries se = checked ++ entries s;
  sc_dest : isdir (w_fs (p_world s)) destination = true;
  sc_live_nodup : NoDup (live s);
  sc_live : ∀ t, t ∈ live s →
    ∃ f, t = batch_task (p_batch se) destination f ∧
         f ∈ entries se ∧ (f ∉ entries s) ∧
         isfile (w_fs (p_world s)) f = true ∧
         ∀ r, L_finish t r ∉ tr;
  sc_rest : ∀ f, f ∈ entries s →
    w_fs (p_world s) !! f = w_fs (p_world se) !! f;
  sc_finished : ∀ t r, L_finish t r ∈ tr →
    ∃ f, t = batch_task (p_batch se) destination f ∧
         f ∈ entries se ∧ (f ∉ entries s);
  sc_submitted : ∀ t, L_submit t ∈ tr →
    ∃ f, t = batch_task (p_batch se) destination f ∧
         f ∈ entries se ∧ isfile (w_fs (p_world se)) f = true;
  sc_skipped : ∀ f, L_skip f ∈ tr →
    f ∈ entries se ∧ isfile (w_fs (p_world se)) f = false;
  sc_passed : ∀ f, f ∈ entries se → f ∉ entries s →
    if isfile (w_fs (p_world se)) f
    then L_submit (batch_task (p_batch se) destination f) ∈ tr
    else L_skip f ∈ tr;
  sc_settled : target ≠ destination →
    ∀ n r, L_finish (batch_task (p_batch se) destination (target ++ [n])) r ∈ tr →
           settled (w_fs (p_world s)) target destination n r
}.

(** The first scenario run with the source as its own destination, after
    the work item of [b.txt]. *)
Definition task_b_home : task :=
  {| t_batch := 1; t_file := ["src"; "b.txt"]; t_dest := ["src"] |}.

Definition two_files_lost : proc :=
  {| p_world :=
       {| w_fs := list_to_map
            [ (["src"], Dir); (["dst"], Dir);
              (["src"; "a.txt"], File "alpha") ];
          w_log :=
            [ {| levelno := WARNING;
                 msg := already_exist_in_destination ["src"; "b.txt"] |} ] |};
     p_clock := 0; p_batch := 1;
     p_main := Filtering [["src"; "a.txt"]];
     p_queue := []; p_running := [];
     p_futures := [(task_b_home, Ret tt)] |}.

(** ** Vocabulary of the further properties *)

(** The time one call of [wait] takes. *)
Definition duration (seconds : option Z) : Z :=
  if truthy seconds then Z.max 1 (default 0 seconds) else 0.

Definition is_wait (l : label) : bool :=
  match l with
  | L_wait _ => true
  | _ => false
  end.

(** The futures that hold a normal return. *)
Definition returned (fr : task * result unit) : bool :=
  match fr.2 with
  | Ret _ => true
  | Raise _ => false
  end.

(** Every work item that is unfinished or has finished along [tr] was
    submitted along [tr]. *)
Definition tracked (tr : list label) (s : proc) : Prop :=
  (∀ t, t ∈ live s → L_submit t ∈ tr) ∧
  (∀ t r, L_finish t r ∈ tr → L_submit t ∈ tr).

(** What the work item of [file] has made, from the filesystem [fs0] in
    which the source was listed to [fs], of the file and of its namesake
    [dst] in the destination: a duplicate is removed and the namesake
    kept; a refused move leaves both names as they were; a move puts the
    entry of the file under the new name. *)
Definition outcome `{Platform} (fs0 fs : filesystem) (file dst : path)
    (r : result unit) : Prop :=
  if path_exists fs0 dst then
    r = Ret tt ∧ fs !! file = None ∧ fs !! dst = fs0 !! dst
  else
    match os_fault file dst with
    | Some detail =>
      r = Raise (OSError detail) ∧
      fs !! file = fs0 !! file ∧ fs !! dst = fs0 !! dst
    | None => r = Ret tt ∧ fs !! file = None ∧ fs !! dst = fs0 !! file
    end.

(** In the state [s] of a call that began in [se]: whatever was visible
    and is not a regular file of the listing is as it was; a regular file
    of the listing whose work item has not finished is as it was, and so
    is its namesake in the destination; and a finished work item has had
    its [outcome]. *)
Record carried `{Platform} (target destination : path)
    (se : proc) (tr : list label) (s : proc) : Prop := {
  ca_untouched : ∀ p,
    path_exists (w_fs (p_world se)) p = true →
    ¬ (p ∈ entries se ∧ isfile (w_fs (p_world se)) p = true) →
    w_fs (p_world s) !! p = w_fs (p_world se) !! p;
  ca_pending : ∀ f,
    f ∈ entries se →
    isfile (w_fs (p_world se)) f = true →
    (∀ r, L_finish (batch_task (p_batch se) destination f) r ∉ tr) →
    w_fs (p_world s) !! f = w_fs (p_world se) !! f ∧
    (target ≠ destination →
     w_fs (p_world s) !! (destination ++ [basename f])
     = w_fs (p_world se) !! (destination ++ [basename f]));
  ca_done : target ≠ destination →
    ∀ f r, f ∈ entries se →
      L_finish (batch_task (p_batch se) destination f) r ∈ tr →
      outcome (w_fs (p_world se)) (w_fs (p_world s))
              f (destination ++ [basename f]) r
}.

(** The mixed scenario, from the listing of the source to the return of
    the call, with three work items in flight at once. *)
Definition scenario_entered : proc :=
  {| p_world := scenario; p_clock := 0; p_batch := 1;
     p_main := Filtering [ ["src"; "c.txt"]; ["src"; "a.txt"];
                           ["src"; "fifo"]; ["src"; "link"];
                           ["src"; "dirlink"]; ["src"; "dangling"];
                           ["src"; "sub"] ];
     p_queue := []; p_running := []; p_futures := [] |}.

Definition scenario_batch : list label :=
  [ L_submit task_c; L_submit task_a; L_skip ["src"; "fifo"];
    L_submit task_link; L_skip ["src"; "dirlink"];
    L_skip ["src"; "dangling"]; L_skip ["src"; "sub"]; L_exhausted;
    L_start task_c; L_start task_link; L_start task_a;
    L_finish task_link (Ret tt); L_finish task_c (Ret tt);
    L_finish task_a (Ret tt); L_return ].

Definition scenario_moved : world :=
  {| w_fs := list_to_map
       [ (["src"], Dir); (["dst"], Dir);
         (["dst"; "a.txt"], File "alpha");
         (["dst"; "c.txt"], File "gamma");
         (["dst"; "link"], Symlink (Some KFile));
         (["src"; "sub"], Dir);
         (["src"; "sub"; "deep.txt"], File "delta");
         (["src"; "dirlink"], Symlink (Some KDir));
         (["src"; "dangling"], Symlink None);
         (["src"; "fifo"], Special) ];
     w_log :=
       [ {| levelno := INFO;
            msg := moved_to_destination ["src"; "link"] ["dst"] |};
         {| levelno := WARNING;
            msg := already_exist_in_destination ["src"; "c.txt"] |};
         {| levelno := INFO;
            msg := moved_to_destination ["src"; "a.txt"] ["dst"] |} ] |}.

Definition scenario_done : proc :=
  {| p_world := scenario_moved; p_clock := 0; p_batch := 1;
     p_main := Waiting; p_queue := []; p_running := [];
     p_futures := [ (task_link, Ret tt); (task_c, Ret tt);
                    (task_a, Ret tt) ] |}.

(** The first scenario on storage that rejects every move: both work
    items raise and the files stay. *)
Definition two_files_refused_batch : list label :=
  [ L_submit task_b; L_submit task_a; L_exhausted;
    L_start task_b; L_finish task_b (Raise (OSError "EACCES"));
    L_start task_a; L_finish task_a (Raise (OSError "EACCES"));
    L_return ].

Definition two_files_refused : proc :=
  {| p_world := two_files; p_clock := 0; p_batch := 1;
     p_main := Waiting; p_queue := []; p_running := [];
     p_futures := [ (task_b, Raise (OSError "EACCES"));
                    (task_a, Raise (OSError "EACCES")) ] |}.

(** The first scenario with both work items in flight. *)
Definition two_files_in_flight : proc :=
  {| p_world := two_files; p_clock := 0; p_batch := 1;
     p_main := Filtering [];
     p_queue := []; p_running := [task_a; task_b]; p_futures := [] |}.

(** A call on the empty directory of the first scenario. *)
Definition empty_source_entered : proc :=
  {| p_world := two_files; p_clock := 0; p_batch := 1;
     p_main := Filtering [];
     p_queue := []; p_running := []; p_futures := [] |}.

Definition is_enter (l : label) : bool :=
  match l with
  | L_enter _ => true
  | _ => false
  end.

(** The command line [cmove src dst -t 2]. *)
Definition two_files_argv : argv :=
  {| a_target := Some ["src"]; a_destination := Some ["dst"];
     a_sleep := None; a_threads := Some 2; a_quiet := 0%nat;
     a_log := None |}.

(** With the source as its own destination: the files whose work items
    have finished are gone, and their work items returned. *)
Definition wiped (target : path) (se : proc) (tr : list label) (s : proc)
    : Prop :=
  ∀ f r, f ∈ entries se →
    L_finish (batch_task (p_batch se) target f) r ∈ tr →
    r = Ret tt ∧ w_fs (p_world s) !! f = None.

(** The first scenario with the source as its own destination, run to
    the return of the call. *)
Definition task_a_home : task :=
  {| t_batch := 1; t_file := ["src"; "a.txt"]; t_dest := ["src"] |}.

Definition two_files_home_batch : list label :=
  [ L_submit task_b_home; L_submit task_a_home; L_exhausted;
    L_start task_a_home; L_start task_b_home;
    L_finish task_b_home (Ret tt); L_finish task_a_home (Ret tt);
    L_return ].

Definition two_files_wiped : proc :=
  {| p_world :=
       {| w_fs := list_to_map [ (["src"], Dir); (["dst"], Dir) ];
          w_log :=
            [ {| levelno := WARNING;
                 msg := already_exist_in_destination ["src"; "b.txt"] |};
              {| levelno := WARNING;
                 msg := already_exist_in_destination ["src"; "a.txt"] |} ] |};
     p_clock := 0; p_batch := 1; p_main := Waiting;
     p_queue := []; p_running := [];
     p_futures := [(task_b_home, Ret tt); (task_a_home, Ret tt)] |}.

(** * Properties *)

(** ** Paths and os.path *)

Lemma basename_snoc (d : path) (n : string) : basename (d ++ [n]) = n.
Proof. unfold basename. by rewrite last_snoc. Qed.

Lemma parent_snoc (d : path) (n : string) : parent (d ++ [n]) = d.
Proof.
  unfold parent. rewrite length_app. simpl.
  replace (length d + 1 - 1)%nat with (length d) by lia.
  by rewrite take_app_length.
Qed.

Lemma entry_of_spec (d p : path) : entry_of d p = true ↔ ∃ n, p = d ++ [n].
Proof.
  unfold entry_of. rewrite bool_decide_eq_true. split.
  - intros Hp. by exists (basename p).
  - intros [n ->]. by rewrite basename_snoc.
Qed.

Lemma isfile_lookup (fs : filesystem) (p : path) :
  isfile fs p = true ↔ ∃ n, fs !! p = Some n ∧ stat n = Some KFile.
Proof.
  unfold isfile, stat_path. rewrite bool_decide_eq_true. split.
  - destruct (fs !! p) as [n|] eqn:E; simpl; [eauto | done].
  - intros (n & -> & Hn). done.
Qed.

Lemma isdir_lookup (fs : filesystem) (p : path) :
  isdir fs p = true ↔ ∃ n, fs !! p = Some n ∧ stat n = Some KDir.
Proof.
  unfold isdir, stat_path. rewrite bool_decide_eq_true. split.
  - destruct (fs !! p) as [n|] eqn:E; simpl; [eauto | done].
  - intros (n & -> & Hn). done.
Qed.

Lemma path_exists_lookup (fs : filesystem) (p : path) :
  path_exists fs p = true ↔ ∃ n k, fs !! p = Some n ∧ stat n = Some k.
Proof.
  unfold path_exists, stat_path. rewrite bool_decide_eq_true. split.
  - destruct (fs !! p) as [n|] eqn:E; simpl; [|by intros [? ?]].
    intros [k Hk]. eauto.
  - intros (n & k & -> & Hn). simpl. eauto.
Qed.

Lemma isfile_exists (fs : filesystem) (p : path) :
  isfile fs p = true → path_exists fs p = true.
Proof.
  rewrite isfile_lookup, path_exists_lookup. intros (n & ? & ?). eauto.
Qed.

Lemma isfile_isdir_ne (fs : filesystem) (p q : path) :
  isfile fs p = true → isdir fs q = true → p ≠ q.
Proof.
  rewrite isfile_lookup, isdir_lookup.
  intros (n & Hn & Hs) (m & Hm & Hd) ->. congruence.
Qed.

(** [glob] yields immediate entries of the directory and nothing else. *)
Lemma elem_of_glob (fs : filesystem) (d p : path) :
  p ∈ glob fs d ↔ isdir fs d = true ∧ is_Some (fs !! p) ∧ ∃ n, p = d ++ [n].
Proof.
  unfold glob. destruct (isdir fs d) eqn:Hd.
  - rewrite list_elem_of_filter, entry_of_spec, list_elem_of_fmap. split.
    + intros [Hn [[q n] [-> Hq%elem_of_map_to_list]]]. simpl in *. eauto.
    + intros (_ & [n Hn] & Hp). split; [done|].
      exists (p, n). split; [done|]. by apply elem_of_map_to_list.
  - rewrite elem_of_nil. split; [done|]. by intros (? & _).
Qed.

Lemma NoDup_glob (fs : filesystem) (d : path) : NoDup (glob fs d).
Proof.
  unfold glob. destruct (isdir fs d); [|constructor].
  apply NoDup_filter, NoDup_fst_map_to_list.
Qed.

(** ** The monad *)

Ltac unfold_M :=
  unfold mbind, M_bind, bind, mret, M_ret, ret, raise, get_fs, put_fs,
    log_info, log_warning, log_error, emit, try_except in *.

Section Move.
Context `{Platform}.

(** [os_rename] either completes or leaves the world as it found it. *)
Lemma os_rename_raise (src dst : path) (w w' : world) (e : exn) :
  os_rename src dst w = (Raise e, w') → w' = w.
Proof.
  unfold os_rename. unfold_M. simpl.
  repeat case_match; intros [= <- <-] || intros [=]; done.
Qed.

Lemma os_remove_raise (file : path) (w w' : world) (e : exn) :
  os_remove file w = (Raise e, w') → w' = w.
Proof.
  unfold os_remove. unfold_M. simpl.
  repeat case_match; intros [= <- <-] || intros [=]; done.
Qed.

Lemma shutil_move_raise (src dst : path) (w w' : world) (e : exn) :
  shutil_move src dst w = (Raise e, w') → w' = w.
Proof.
  unfold shutil_move. unfold_M. simpl.
  repeat case_match; simplify_eq; try done;
    intros [= <- <-] || intros [=]; try done;
    eauto using os_rename_raise.
Qed.

(** Renaming a non-directory onto a free or non-directory name. *)
Lemma os_rename_file (src dst : path) (w : world) (n : node) :
  w_fs w !! src = Some n →
  n ≠ Dir →
  isdir (w_fs w) (parent dst) = true →
  w_fs w !! dst ≠ Some Dir →
  src ≠ dst →
  os_rename src dst w =
    match os_fault src dst with
    | Some detail => (Raise (OSError detail), w)
    | None => (Ret tt, {| w_fs := <[dst := n]> (delete src (w_fs w));
                          w_log := w_log w |})
    end.
Proof.
  intros Hsrc Hn Hpar Hdst Hne. unfold os_rename. unfold_M. simpl.
  rewrite Hsrc, Hpar. simpl. destruct (os_fault src dst); [done|].
  rewrite bool_decide_eq_false_2 by done.
  destruct n; try done; destruct (w_fs w !! dst) as [[]|]; done.
Qed.

(** What [shutil.move] does with a regular file (or a link to one) and an
    existing destination directory. *)
Lemma shutil_move_file (file dest : path) (w : world) :
  isfile (w_fs w) file = true →
  isdir (w_fs w) dest = true →
  ∃ n, w_fs w !! file = Some n ∧ stat n = Some KFile ∧
    shutil_move file dest w =
      if path_exists (w_fs w) (dest ++ [basename file])
      then (Raise (shutil_Error "Destination path already exists"), w)
      else match os_fault file (dest ++ [basename file]) with
           | Some detail => (Raise (OSError detail), w)
           | None =>
             (Ret (dest ++ [basename file]),
              {| w_fs := <[dest ++ [basename file] := n]> (delete file (w_fs w));
                 w_log := w_log w |})
           end.
Proof.
  intros Hf Hd. pose proof (isfile_isdir_ne _ _ _ Hf Hd) as Hne.
  destruct (proj1 (isfile_lookup _ _) Hf) as (n & Hn & Hs).
  exists n. split; [done|]. split; [done|].
  unfold shutil_move, _samefile. unfold_M. simpl. rewrite Hd.
  rewrite (bool_decide_eq_false_2 (file = dest)) by done.
  rewrite andb_false_r.
  destruct (path_exists (w_fs w) (dest ++ [basename file])) eqn:Hex; [done|].
  assert (file ≠ dest ++ [basename file]) as Hne2.
  { intros Heq. rewrite <- Heq in Hex. apply isfile_exists in Hf. congruence. }
  assert (w_fs w !! (dest ++ [basename file]) ≠ Some Dir) as Hnd.
  { intros Hl. apply not_true_iff_false in Hex. apply Hex.
    apply path_exists_lookup. eauto. }
  rewrite (os_rename_file _ _ _ n); try done.
  - by destruct (os_fault file (dest ++ [basename file])).
  - intros ->. done.
  - by rewrite parent_snoc.
Qed.

(** The three outcomes of a work item on a regular file. *)
Lemma _move_file (file dest : path) (w : world) :
  isfile (w_fs w) file = true →
  isdir (w_fs w) dest = true →
  ∃ n, w_fs w !! file = Some n ∧ stat n = Some KFile ∧
    _move file dest w =
      if path_exists (w_fs w) (dest ++ [basename file])
      then (Ret tt,
            {| w_fs := delete file (w_fs w);
               w_log := w_log w ++
                 [{| levelno := WARNING;
                     msg := already_exist_in_destination file |}] |})
      else match os_fault file (dest ++ [basename file]) with
           | Some detail => (Raise (OSError detail), w)
           | None =>
             (Ret tt,
              {| w_fs := <[dest ++ [basename file] := n]> (delete file (w_fs w));
                 w_log := w_log w ++
                   [{| levelno := INFO;
                       msg := moved_to_destination file dest |}] |})
           end.
Proof.
  intros Hf Hd.
  destruct (shutil_move_file file dest w Hf Hd) as (n & Hn & Hs & Hmv).
  exists n. split; [done|]. split; [done|].
  unfold _move, try_except, mbind, M_bind, bind. rewrite Hmv.
  destruct (path_exists (w_fs w) (dest ++ [basename file])).
  - simpl. unfold os_remove. unfold_M. simpl. rewrite Hn.
    destruct n; try done.
  - destruct (os_fault file (dest ++ [basename file])); done.
Qed.

(** An error of the move other than [shutil.Error] leaves [_move] as it is,
    with the world the failed move left. *)
Lemma _move_other_error (file dest : path) (w w' : world) (e : exn) :
  shutil_move file dest w = (Raise e, w') →
  is_shutil_Error e = false →
  _move file dest w = (Raise e, w).
Proof.
  intros Hmv He. pose proof (shutil_move_raise _ _ _ _ _ Hmv) as ->.
  unfold _move, try_except, mbind, M_bind, bind. rewrite Hmv. simpl.
  by rewrite He.
Qed.

End Move.

Lemma isfile_ext (fs fs' : filesystem) (p : path) :
  fs' !! p = fs !! p → isfile fs' p = isfile fs p.
Proof. intros Heq. unfold isfile, stat_path. by rewrite Heq. Qed.

Lemma isdir_ext (fs fs' : filesystem) (p : path) :
  fs' !! p = fs !! p → isdir fs' p = isdir fs p.
Proof. intros Heq. unfold isdir, stat_path. by rewrite Heq. Qed.

Lemma path_exists_ext (fs fs' : filesystem) (p : path) :
  fs' !! p = fs !! p → path_exists fs' p = path_exists fs p.
Proof. intros Heq. unfold path_exists, stat_path. by rewrite Heq. Qed.

Section MoveOutcome.
Context `{Platform}.

(** A work item on a regular file touches two names: the file and its
    namesake in the destination. *)
Lemma _move_frame (file dest : path) (w w' : world) (r : result unit) :
  isfile (w_fs w) file = true →
  isdir (w_fs w) dest = true →
  _move file dest w = (r, w') →
  ∀ p, p ≠ file → p ≠ dest ++ [basename file] →
       w_fs w' !! p = w_fs w !! p.
Proof.
  intros Hf Hd Hm p Hp1 Hp2.
  destruct (_move_file file dest w Hf Hd) as (n & _ & _ & Hm').
  rewrite Hm in Hm'.
  destruct (path_exists (w_fs w) (dest ++ [basename file])).
  - injection Hm' as -> ->. simpl. by rewrite lookup_delete_ne.
  - destruct (os_fault file (dest ++ [basename file])).
    + by injection Hm' as -> ->.
    + injection Hm' as -> ->. simpl.
      by rewrite lookup_insert_ne, lookup_delete_ne.
Qed.

(** Between two different directories, the work item leaves the name in
    exactly one of them. *)
Lemma _move_settles (source dest : path) (name : string)
    (w w' : world) (r : result unit) :
  isfile (w_fs w) (source ++ [name]) = true →
  isdir (w_fs w) dest = true →
  source ≠ dest →
  _move (source ++ [name]) dest w = (r, w') →
  settled (w_fs w') source dest name r.
Proof.
  intros Hf Hd Hne Hm.
  destruct (_move_file _ dest w Hf Hd) as (n & Hn & Hs & Hm').
  rewrite Hm in Hm'. rewrite basename_snoc in Hm'.
  assert (dest ++ [name] ≠ source ++ [name]) as Hne'.
  { intros Heq%app_inj_tail. by destruct Heq. }
  unfold settled, present_in.
  destruct (path_exists (w_fs w) (dest ++ [name])) eqn:Hex.
  - (* duplicate *)
    left. injection Hm' as -> ->. simpl. split; [done|]. split.
    + apply not_true_iff_false. rewrite path_exists_lookup.
      rewrite lookup_delete_eq. by intros (? & ? & ? & _).
    + apply path_exists_lookup in Hex as (m & k & Hl & Hk).
      apply path_exists_lookup. exists m, k.
      by rewrite lookup_delete_ne.
  - destruct (os_fault (source ++ [name]) (dest ++ [name])) as [detail|].
    + (* failed *)
      right. injection Hm' as -> ->. exists (OSError detail).
      split; [done|]. split; [by apply isfile_exists | done].
    + (* moved *)
      left. injection Hm' as -> ->. simpl. split; [done|]. split.
      * apply not_true_iff_false. rewrite path_exists_lookup.
        rewrite lookup_insert_ne, lookup_delete_eq by done.
        by intros (? & ? & ? & _).
      * apply path_exists_lookup. exists n, KFile.
        by rewrite lookup_insert_eq.
Qed.

End MoveOutcome.

(** ** The process *)

Ltac list_mem :=
  repeat (rewrite elem_of_app || rewrite elem_of_cons || rewrite elem_of_nil);
  tauto.

Section ProcessProperties.
Context `{Platform}.
Variables (target destination : path) (threads seconds : option Z).

Local Abbreviation step := (step target destination threads seconds).
Local Abbreviation exec := (exec target destination threads seconds).

Lemma exec_invariant (P : list label → proc → Prop) (s0 : proc) :
  P [] s0 →
  (∀ tr s l s', exec s0 tr s → P tr s → step s l s' → P (tr ++ [l]) s') →
  ∀ tr s, exec s0 tr s → P tr s.
Proof. intros H0 Hstep tr s Hexec. induction Hexec; eauto. Qed.

Lemma exec_app (s0 s1 s2 : proc) (tr1 tr2 : list label) :
  exec s0 tr1 s1 → exec s1 tr2 s2 → exec s0 (tr1 ++ tr2) s2.
Proof.
  intros H1 H2. induction H2.
  - by rewrite app_nil_r.
  - rewrite app_assoc. econstructor; eauto.
Qed.

Lemma exec_one (s s' : proc) (l : label) : step s l s' → exec s [l] s'.
Proof. intros Hs. apply (exec_snoc _ _ _ _ s [] s l s'); [constructor | done]. Qed.

Lemma of_batch_all (k : nat) (l : list task) :
  (∀ t, t ∈ l → t_batch t = k) → of_batch k l = l.
Proof.
  intros Hall. unfold of_batch. induction l as [|t l IH]; [done|].
  rewrite filter_cons_True by (apply Hall; left).
  f_equal. apply IH. intros t' Ht'. apply Hall. by right.
Qed.

Lemma isolated_step (s s' : proc) (l : label) :
  isolated s → step s l s' → isolated s'.
Proof.
  unfold isolated, live. intros [Hb Hm] Hs.
  destruct Hs as [s mw Hmain|s e Hmain|s f rest Hmain|s f rest Hmain
    |s Hmain|s q1 t q2 mw Hq|s r1 t r2 r w' Hr|s Hmain Hq Hr|s fuel slept Hmain
    |s Hmain]; simpl.
  - rewrite Hm by eauto. split; [by intros ? ?%elem_of_nil | done].
  - split; [done | by intros [|]].
  - split; [done | by intros [|]].
  - split; [|by intros [|]].
    intros t. rewrite !elem_of_app, list_elem_of_singleton.
    intros [[?| ->]|?]; [apply Hb| done |apply Hb]; rewrite elem_of_app; eauto.
  - split; [done | by intros [|]].
  - rewrite Hq in *. split.
    + intros t' Ht'. apply Hb. revert Ht'. list_mem.
    + intros Hmain. apply Hm in Hmain. by destruct q1.
  - rewrite Hr in *. split.
    + intros t' Ht'. apply Hb. revert Ht'. list_mem.
    + intros Hmain. apply Hm in Hmain. destruct (p_queue s), r1; done.
  - split; [done|]. intros _.
    rewrite of_batch_all in Hq
      by (intros t Ht; apply Hb; rewrite elem_of_app; eauto).
    rewrite of_batch_all in Hr
      by (intros t Ht; apply Hb; rewrite elem_of_app; eauto).
    by rewrite Hq, Hr.
  - split; [done|]. intros _. apply Hm. eauto.
  - split; [done | by intros [|]].
Qed.

Lemma isolated_boot (w : world) : isolated (boot w).
Proof. split; [by intros ? ?%elem_of_nil | done]. Qed.

Lemma exec_isolated (w : world) (tr : list label) (s : proc) :
  exec (boot w) tr s → isolated s.
Proof.
  apply (exec_invariant (λ _ s, isolated s)).
  - apply isolated_boot.
  - eauto using isolated_step.
Qed.

End ProcessProperties.

Section ProcessAccounting.
Context `{Platform}.
Variables (target destination : path) (threads seconds : option Z).

Local Abbreviation step := (step target destination threads seconds).
Local Abbreviation exec := (exec target destination threads seconds).

Lemma accounted_step (tr : list label) (s s' : proc) (l : label) :
  accounted tr s → step s l s' → accounted (tr ++ [l]) s'.
Proof.
  unfold accounted. intros Hsub Hs.
  assert (∀ l', l' ∈ tr ++ [l] ↔ l' ∈ tr ∨ l' = l) as Hin.
  { intros l'. by rewrite elem_of_app, list_elem_of_singleton. }
  destruct Hs as [s mw Hmain|s e Hmain|s f rest Hmain|s f rest Hmain
    |s Hmain|s q1 t q2 mw Hq|s r1 t r2 r w' Hr|s Hmain Hq Hr|s fuel slept Hmain
    |s Hmain]; simpl; intros t0; rewrite ?Hin;
    try (intros [Ht0|[=]]; apply Hsub in Ht0;
         destruct Ht0 as [?|[?|[r' ?]]]; eauto;
         right; right; exists r'; apply Hin; eauto).
  - (* submit *)
    intros [Ht0|[= ->]].
    + apply Hsub in Ht0. destruct Ht0 as [?|[?|[r' ?]]].
      * left. apply elem_of_app. eauto.
      * eauto.
      * right; right. exists r'. apply Hin. eauto.
    + left. apply elem_of_app. right. by left.
  - (* start *)
    intros [Ht0|[=]]. apply Hsub in Ht0. rewrite Hq in Ht0.
    destruct Ht0 as [Ht0|[?|[r' ?]]].
    + revert Ht0. list_mem.
    + right; left. by right.
    + right; right. exists r'. apply Hin. eauto.
  - (* finish *)
    intros [Ht0|[=]]. apply Hsub in Ht0. rewrite Hr in Ht0.
    destruct Ht0 as [?|[Ht0|[r' ?]]].
    + eauto.
    + apply elem_of_app in Ht0. destruct Ht0 as [?|[->|?]%elem_of_cons].
      * right; left. apply elem_of_app. eauto.
      * right; right. exists r. apply Hin. eauto.
      * right; left. apply elem_of_app. eauto.
    + right; right. exists r'. apply Hin. eauto.
Qed.

(** From whatever state the execution starts. *)
Lemma exec_accounted (s0 : proc) (tr : list label) (s : proc) :
  exec s0 tr s → accounted tr s.
Proof.
  induction 1 as [|s0 tr s1 l s2 Hexec IH Hstep].
  - by intros t ?%elem_of_nil.
  - by eapply accounted_step.
Qed.

Lemma recorded_step (tr : list label) (s s' : proc) (l : label) :
  recorded tr s → step s l s' → recorded (tr ++ [l]) s'.
Proof.
  unfold recorded. intros Hfin Hs t0 r0.
  rewrite elem_of_app, list_elem_of_singleton.
  destruct Hs as [s mw Hmain|s e Hmain|s f rest Hmain|s f rest Hmain
    |s Hmain|s q1 t q2 mw Hq|s r1 t r2 r w' Hr|s Hmain Hq Hr|s fuel slept Hmain
    |s Hmain]; simpl; rewrite <- ?Hfin;
    try (split; [by intros [?|[=]] | by left]).
  rewrite elem_of_app, list_elem_of_singleton, Hfin.
  split; (intros [?|?]; [by left | right; congruence]).
Qed.

Lemma exec_recorded (w : world) (tr : list label) (s : proc) :
  exec (boot w) tr s → recorded tr s.
Proof.
  revert tr s.
  apply (exec_invariant target destination threads seconds recorded).
  - intros t r. simpl. by rewrite !elem_of_nil.
  - eauto using recorded_step.
Qed.

(** At most [max_workers] work items run at any moment. *)
Lemma exec_bounded (w : world) (tr : list label) (s : proc) (mw : Z) :
  ThreadPoolExecutor threads = Ret mw →
  exec (boot w) tr s →
  Z.of_nat (length (p_running s)) ≤ mw.
Proof.
  intros Hmw Hexec.
  assert (0 < mw) as Hpos.
  { unfold ThreadPoolExecutor in Hmw. case_match; [done|].
    simplify_eq. lia. }
  revert tr s Hexec.
  apply (exec_invariant target destination threads seconds
           (λ _ s, Z.of_nat (length (p_running s)) ≤ mw)); [simpl; lia|].
  intros tr s l s' Hexec Hle Hs.
  pose proof (exec_isolated _ _ _ _ _ _ _ Hexec) as [Hb _].
  destruct Hs as [s mw' Hmain|s e Hmain|s f rest Hmain|s f rest Hmain
    |s Hmain|s q1 t q2 mw' Hq Hmw' Hlt|s r1 t r2 r w' Hr|s Hmain Hq Hr
    |s fuel slept Hmain|s Hmain]; simpl; try done.
  - rewrite of_batch_all in Hlt.
    + assert (mw' = mw) as -> by congruence. lia.
    + intros t' Ht'. rewrite (Hb t), (Hb t'); [done|..];
        unfold live; rewrite ?Hq; revert Ht'; list_mem.
  - rewrite Hr in Hle. rewrite length_app in *. simpl in *. lia.
Qed.

(** A finishing work item reaches the main thread in no way: its outcome
    goes to its future and the other work items stay where they are. *)
Lemma finish_confined (s s' : proc) (t : task) (r : result unit) :
  step s (L_finish t r) s' →
  p_main s' = p_main s ∧ p_batch s' = p_batch s ∧ p_clock s' = p_clock s ∧
  p_queue s' = p_queue s ∧
  p_running s ≡ₚ t :: p_running s' ∧
  p_futures s' = p_futures s ++ [(t, r)] ∧
  _move (t_file t) (t_dest t) (p_world s) = (r, p_world s').
Proof.
  inversion 1 as [| | | | | |s0 r1 t0 r2 r0 w' Hr Hmv| | |]; subst; simpl.
  repeat split; try done.
  rewrite Hr. by rewrite Permutation_middle.
Qed.

End ProcessAccounting.

Section Liveness.
Context `{Platform}.
Variables (target destination : path) (threads seconds : option Z).

Local Abbreviation step := (step target destination threads seconds).
Local Abbreviation exec := (exec target destination threads seconds).

(** Every step inside a call brings its return closer. *)
Lemma in_batch_decreases (s s' : proc) (l : label) :
  step s l s' → in_batch l = true → (remaining s' < remaining s)%nat.
Proof.
  unfold remaining.
  destruct 1 as [s mw Hmain|s e Hmain|s f rest Hmain|s f rest Hmain
    |s Hmain|s q1 t q2 mw Hq|s r1 t r2 r w' Hr|s Hmain Hq Hr|s fuel slept Hmain
    |s Hmain]; simpl; try done; intros _;
    rewrite ?Hmain, ?Hq, ?Hr, ?length_app; simpl; lia.
Qed.

(** So a call takes at most [remaining] steps, whatever the schedule. *)
Lemma in_batch_bounded (s s' : proc) (tr : list label) :
  exec s tr s' → Forall (λ l, in_batch l = true) tr →
  (length tr + remaining s' ≤ remaining s)%nat.
Proof.
  induction 1 as [|s tr s1 l s2 Hexec IH Hstep]; [simpl; lia|].
  rewrite Forall_app, Forall_singleton. intros [Htr Hl].
  pose proof (in_batch_decreases _ _ _ Hstep Hl).
  rewrite length_app. simpl. specialize (IH Htr). lia.
Qed.

(** And until it has returned, some step of the call is enabled. *)
Lemma in_batch_progress (s : proc) (mw : Z) :
  ThreadPoolExecutor threads = Ret mw →
  isolated s →
  (∃ rest, p_main s = Filtering rest) ∨ p_main s = Shutdown →
  ∃ l s', step s l s' ∧ in_batch l = true.
Proof.
  intros Hmw [Hb _] [[rest Hmain]|Hmain].
  - destruct rest as [|f rest].
    + exists L_exhausted, (set_main s Shutdown).
      split; [by apply step_exhausted | done].
    + destruct (isfile (w_fs (p_world s)) f) eqn:Hf.
      * eexists (L_submit _), _. split; [by eapply step_submit | done].
      * eexists (L_skip _), _. split; [by eapply step_skip | done].
  - destruct (p_running s) as [|t r] eqn:Hr.
    + destruct (p_queue s) as [|t q] eqn:Hq.
      * exists L_return, (set_main s Waiting). split; [|done].
        apply step_return; [done|..]; by rewrite ?Hq, ?Hr.
      * eexists (L_start t), _. split; [|done].
        eapply (step_start _ _ _ _ s [] t q mw); [done..|].
        rewrite Hr. simpl. unfold ThreadPoolExecutor in Hmw.
        case_match; [done|]. simplify_eq. lia.
    + destruct (_move (t_file t) (t_dest t) (p_world s)) as [r0 w'] eqn:Hm.
      eexists (L_finish t r0), _. split; [|done].
      by eapply (step_finish _ _ _ _ s [] t r r0 w').
Qed.

(** A schedule that completes the call: filter what is left, let the
    workers finish, return. *)
Lemma finish_running (s : proc) :
  ∃ tr s', exec s tr s' ∧ Forall (λ l, in_batch l = true) tr ∧
    p_running s' = [] ∧ p_queue s' = p_queue s ∧ p_main s' = p_main s ∧
    p_batch s' = p_batch s.
Proof.
  remember (length (p_running s)) as k eqn:Hk.
  revert s Hk. induction k as [|k IH]; intros s Hk.
  - exists [], s. repeat split; try done; [constructor|].
    by destruct (p_running s).
  - destruct (p_running s) as [|t r] eqn:Hr; [done|].
    destruct (_move (t_file t) (t_dest t) (p_world s)) as [r0 w'] eqn:Hm.
    pose proof (step_finish target destination threads seconds
                  s [] t r r0 w' Hr Hm) as Hstep.
    match type of Hstep with step _ _ ?s1 =>
      destruct (IH s1) as (tr & s' & Hexec & Hall & Hrun & Hq & Hmain & Hbatch)
    end; [simpl; simpl in Hk; lia|].
    exists (L_finish t r0 :: tr), s'. repeat split; try done.
    + apply (exec_app _ _ _ _ _ _ _ [_] tr (exec_one _ _ _ _ _ _ _ Hstep) Hexec).
    + by constructor.
Qed.

Lemma drain_queue (s : proc) (mw : Z) :
  ThreadPoolExecutor threads = Ret mw →
  p_running s = [] →
  ∃ tr s', exec s tr s' ∧ Forall (λ l, in_batch l = true) tr ∧
    p_running s' = [] ∧ p_queue s' = [] ∧ p_main s' = p_main s ∧
    p_batch s' = p_batch s.
Proof.
  intros Hmw.
  assert (0 < mw) as Hpos.
  { unfold ThreadPoolExecutor in Hmw. case_match; [done|]. simplify_eq. lia. }
  remember (length (p_queue s)) as k eqn:Hk.
  revert s Hk. induction k as [|k IH]; intros s Hk Hr.
  - exists [], s. repeat split; try done; [constructor|].
    by destruct (p_queue s).
  - destruct (p_queue s) as [|t q] eqn:Hq; [done|].
    assert (Z.of_nat (length (of_batch (t_batch t) (p_running s))) < mw) as Hlt.
    { rewrite Hr. simpl. lia. }
    pose proof (step_start target destination threads seconds
                  s [] t q mw Hq Hmw Hlt) as Hstart.
    destruct (_move (t_file t) (t_dest t) (p_world s)) as [r0 w'] eqn:Hm.
    match type of Hstart with step _ _ ?s1 =>
      pose proof (step_finish target destination threads seconds
                    s1 [] t (p_running s) r0 w' eq_refl Hm) as Hfin
    end.
    match type of Hfin with step _ _ ?s2 =>
      destruct (IH s2) as (tr & s' & Hexec & Hall & Hrun & Hq' & Hmain & Hbatch)
    end; [simpl; simpl in Hk; lia|simpl; by rewrite Hr|].
    exists (L_start t :: L_finish t r0 :: tr), s'. repeat split; try done.
    + apply (exec_app _ _ _ _ _ _ _ [_] _ (exec_one _ _ _ _ _ _ _ Hstart)).
      apply (exec_app _ _ _ _ _ _ _ [_] _ (exec_one _ _ _ _ _ _ _ Hfin)).
      exact Hexec.
    + by repeat constructor.
Qed.

Lemma filter_rest (rest : list path) (s : proc) :
  p_main s = Filtering rest →
  ∃ tr s', exec s tr s' ∧ Forall (λ l, in_batch l = true) tr ∧
    p_main s' = Shutdown ∧ p_batch s' = p_batch s.
Proof.
  revert s. induction rest as [|f rest IH]; intros s Hmain.
  - exists [L_exhausted], (set_main s Shutdown). repeat split.
    + apply exec_one. by apply step_exhausted.
    + by repeat constructor.
  - destruct (isfile (w_fs (p_world s)) f) eqn:Hf.
    + pose proof (step_submit target destination threads seconds
                    s f rest Hmain Hf) as Hstep.
      match type of Hstep with step _ _ ?s1 =>
        destruct (IH s1) as (tr & s' & Hexec & Hall & Hmain' & Hbatch)
      end; [done|].
      exists (L_submit (submitted destination s f) :: tr), s'.
      repeat split; try done.
      * apply (exec_app _ _ _ _ _ _ _ [_] _ (exec_one _ _ _ _ _ _ _ Hstep) Hexec).
      * by constructor.
    + pose proof (step_skip target destination threads seconds
                    s f rest Hmain Hf) as Hstep.
      match type of Hstep with step _ _ ?s1 =>
        destruct (IH s1) as (tr & s' & Hexec & Hall & Hmain' & Hbatch)
      end; [done|].
      exists (L_skip f :: tr), s'. repeat split; try done.
      * apply (exec_app _ _ _ _ _ _ _ [_] _ (exec_one _ _ _ _ _ _ _ Hstep) Hexec).
      * by constructor.
Qed.

Lemma batch_completes (s : proc) (mw : Z) :
  ThreadPoolExecutor threads = Ret mw →
  (∃ rest, p_main s = Filtering rest) ∨ p_main s = Shutdown →
  ∃ tr s', exec s tr s' ∧ Forall (λ l, in_batch l = true) tr ∧
    p_main s' = Waiting ∧ live s' = [] ∧ p_batch s' = p_batch s.
Proof.
  intros Hmw Hmain.
  assert (∃ tr1 s1, exec s tr1 s1 ∧ Forall (λ l, in_batch l = true) tr1 ∧
            p_main s1 = Shutdown ∧ p_batch s1 = p_batch s)
    as (tr1 & s1 & Hexec1 & Hall1 & Hmain1 & Hbatch1).
  { destruct Hmain as [[rest Hmain]|Hmain].
    - by eapply filter_rest.
    - exists [], s. repeat split; [constructor|constructor|done]. }
  destruct (finish_running s1) as (tr2 & s2 & Hexec2 & Hall2 & Hrun2 & _ & Hmain2 & Hbatch2).
  destruct (drain_queue s2 mw Hmw Hrun2)
    as (tr3 & s3 & Hexec3 & Hall3 & Hrun3 & Hq3 & Hmain3 & Hbatch3).
  exists (tr1 ++ tr2 ++ tr3 ++ [L_return]), (set_main s3 Waiting).
  repeat split.
  - eapply exec_app; [exact Hexec1|].
    eapply exec_app; [exact Hexec2|].
    eapply exec_snoc; [exact Hexec3|].
    apply step_return; [congruence|by rewrite Hq3|by rewrite Hrun3].
  - rewrite !Forall_app. repeat split; try done. by repeat constructor.
  - unfold live. simpl. by rewrite Hq3, Hrun3.
  - simpl. congruence.
Qed.

End Liveness.

Section Replay.
Context `{Platform}.
Variables (target destination : path) (threads seconds : option Z).

Local Abbreviation step := (step target destination threads seconds).
Local Abbreviation exec := (exec target destination threads seconds).
Local Abbreviation step_fn := (step_fn target destination threads seconds).
Local Abbreviation replay := (replay target destination threads seconds).

Lemma remove_first_Some (t : task) (l l' : list task) :
  remove_first t l = Some l' → ∃ l1 l2, l = l1 ++ t :: l2 ∧ l' = l1 ++ l2.
Proof.
  revert l'. induction l as [|x l IH]; intros l'; simpl; [done|].
  destruct (decide (x = t)) as [->|Hne].
  - intros [= <-]. by exists [], l.
  - destruct (remove_first t l) as [l0|]; simpl; [|done].
    intros [= <-]. destruct (IH l0 eq_refl) as (l1 & l2 & -> & ->).
    by exists (x :: l1), l2.
Qed.

Lemma step_fn_sound (s s' : proc) (l : label) :
  step_fn s l = Some s' → step s l s'.
Proof.
  unfold step_fn. destruct l as [mw|e|f|t| |t|t r| |slept| ].
  - destruct (p_main s) eqn:Hmain; try done.
    case_decide; [|done]. intros [= <-]. by apply step_enter.
  - destruct (p_main s) eqn:Hmain; try done.
    case_decide; [|done]. intros [= <-]. by apply step_crash.
  - destruct (p_main s) as [|[|file rest]| | |] eqn:Hmain; try done.
    case_decide as Hf; [subst f|done].
    destruct (isfile (w_fs (p_world s)) file) eqn:Hfile; [done|].
    intros [= <-]. by apply step_skip.
  - destruct (p_main s) as [|[|file rest]| | |] eqn:Hmain; try done.
    case_decide as Ht; [subst t|done].
    destruct (isfile (w_fs (p_world s)) file) eqn:Hfile; [|done].
    intros [= <-]. by apply step_submit.
  - destruct (p_main s) as [|[|file rest]| | |] eqn:Hmain; try done.
    intros [= <-]. by apply step_exhausted.
  - destruct (remove_first t (p_queue s)) as [q|] eqn:Hq;
      [|by destruct (p_main s)].
    destruct (ThreadPoolExecutor threads) as [mw|] eqn:Hmw;
      [|by destruct (p_main s)].
    apply remove_first_Some in Hq as (q1 & q2 & Hq & ->).
    case_decide; [|by destruct (p_main s)].
    assert (Some {| p_world := p_world s; p_clock := p_clock s;
                    p_batch := p_batch s; p_main := p_main s;
                    p_queue := q1 ++ q2; p_running := t :: p_running s;
                    p_futures := p_futures s |} = Some s' → step s (L_start t) s')
      as Hgoal.
    { intros [= <-]. by eapply step_start. }
    by destruct (p_main s).
  - destruct (remove_first t (p_running s)) as [run|] eqn:Hr;
      [|by destruct (p_main s)].
    apply remove_first_Some in Hr as (r1 & r2 & Hr & ->).
    case_decide as Hres; [|by destruct (p_main s)].
    assert (Some {| p_world := (_move (t_file t) (t_dest t) (p_world s)).2;
                    p_clock := p_clock s; p_batch := p_batch s;
                    p_main := p_main s; p_queue := p_queue s;
                    p_running := r1 ++ r2;
                    p_futures := p_futures s ++ [(t, r)] |} = Some s'
            → step s (L_finish t r) s') as Hgoal.
    { intros [= <-]. eapply step_finish; [done|].
      rewrite Hres. apply surjective_pairing. }
    by destruct (p_main s).
  - destruct (p_main s) eqn:Hmain; try done.
    case_decide as Hg; [|done]. destruct Hg. intros [= <-].
    by apply step_return.
  - destruct (p_main s) eqn:Hmain; try done.
    case_decide; [|done]. intros [= <-]. by eapply step_wait.
  - destruct (p_main s) eqn:Hmain; try done;
      intros [= <-]; apply step_interrupt; congruence.
Qed.

Lemma exec_cons (s s1 s2 : proc) (l : label) (tr : list label) :
  step s l s1 → exec s1 tr s2 → exec s (l :: tr) s2.
Proof.
  intros Hstep Hexec.
  apply (exec_app _ _ _ _ s s1 s2 [l] tr); [|done].
  by apply exec_one.
Qed.

Lemma replay_sound (tr : list label) (s s' : proc) :
  replay s tr = Some s' → exec s tr s'.
Proof.
  revert s. induction tr as [|l tr IH]; intros s; simpl.
  - intros [= <-]. constructor.
  - destruct (step_fn s l) as [s1|] eqn:Hs; [|done].
    intros Hr. eapply exec_cons; [by apply step_fn_sound | by apply IH].
Qed.

End Replay.

(** ** What a work item leaves alone *)

Lemma same_dirs_refl (fs : filesystem) : same_dirs fs fs.
Proof. by intros p n _. Qed.

Lemma same_dirs_trans (fs1 fs2 fs3 : filesystem) :
  same_dirs fs1 fs2 → same_dirs fs2 fs3 → same_dirs fs1 fs3.
Proof. intros H12 H23 p n Hn. by rewrite (H23 p n Hn), (H12 p n Hn). Qed.

Lemma same_dirs_stat (fs fs' : filesystem) (p : path) :
  same_dirs fs fs' →
  (stat_path fs' p = Some KDir ↔ stat_path fs p = Some KDir).
Proof.
  intros Hsame. unfold stat_path. split.
  - destruct (fs' !! p) as [n|] eqn:Hl; simpl; [|done]. intros Hn.
    apply (Hsame p n Hn) in Hl. by rewrite Hl.
  - destruct (fs !! p) as [n|] eqn:Hl; simpl; [|done]. intros Hn.
    apply (Hsame p n Hn) in Hl. by rewrite Hl.
Qed.

Lemma same_dirs_delete (fs : filesystem) (file : path) :
  stat_path fs file ≠ Some KDir → same_dirs fs (delete file fs).
Proof.
  intros Hfile p n Hn. destruct (decide (p = file)) as [->|Hne].
  - rewrite lookup_delete_eq. split; [done|]. intros Hl.
    exfalso. apply Hfile. unfold stat_path. by rewrite Hl.
  - by rewrite lookup_delete_ne.
Qed.

Lemma same_dirs_rename (fs : filesystem) (src dst : path) (n : node) :
  fs !! src = Some n →
  stat_path fs src ≠ Some KDir →
  stat_path fs dst ≠ Some KDir →
  same_dirs fs (<[dst := n]> (delete src fs)).
Proof.
  intros Hsrc Hs Hd p m Hm. destruct (decide (p = dst)) as [->|Hne].
  - rewrite lookup_insert_eq. split.
    + intros [= ->]. exfalso. apply Hs. unfold stat_path. by rewrite Hsrc.
    + intros Hl. exfalso. apply Hd. unfold stat_path. by rewrite Hl.
  - rewrite lookup_insert_ne by done. by apply same_dirs_delete.
Qed.

Section Untouched.
Context `{Platform}.

Lemma os_rename_same_dirs (src dst : path) (w w' : world) (r : result unit) :
  stat_path (w_fs w) src ≠ Some KDir →
  stat_path (w_fs w) dst ≠ Some KDir →
  os_rename src dst w = (r, w') →
  same_dirs (w_fs w) (w_fs w') ∧ w_log w' = w_log w.
Proof.
  intros Hs Hd. unfold os_rename. unfold_M. simpl.
  destruct (w_fs w !! src) as [n|] eqn:Hsrc;
    [|intros [= <- <-]; split; [apply same_dirs_refl | done]].
  destruct (isdir (w_fs w) (parent dst)); simpl;
    [|intros [= <- <-]; split; [apply same_dirs_refl | done]].
  destruct (os_fault src dst);
    [intros [= <- <-]; split; [apply same_dirs_refl | done]|].
  case_bool_decide;
    [intros [= <- <-]; split; [apply same_dirs_refl | done]|].
  assert (n ≠ Dir) as Hn.
  { intros ->. apply Hs. unfold stat_path. by rewrite Hsrc. }
  destruct n; try done;
    (destruct (w_fs w !! dst) as [[]|];
     intros [= <- <-]; simpl;
     (split; [first [apply same_dirs_refl | by apply same_dirs_rename] | done])).
Qed.

Lemma os_remove_same_dirs (file : path) (w w' : world) (r : result unit) :
  stat_path (w_fs w) file ≠ Some KDir →
  os_remove file w = (r, w') →
  same_dirs (w_fs w) (w_fs w') ∧ w_log w' = w_log w.
Proof.
  intros Hf. unfold os_remove. unfold_M. simpl.
  destruct (w_fs w !! file) as [[]|] eqn:Hl; intros [= <- <-]; simpl;
    (split; [first [apply same_dirs_refl | by apply same_dirs_delete] | done]).
Qed.

Lemma shutil_move_same_dirs (src dst : path) (w w' : world) (r : result path) :
  stat_path (w_fs w) src ≠ Some KDir →
  shutil_move src dst w = (r, w') →
  same_dirs (w_fs w) (w_fs w') ∧ w_log w' = w_log w.
Proof.
  intros Hs. unfold shutil_move, _samefile.
  unfold mbind, M_bind, bind at 1, get_fs.
  destruct (isdir (w_fs w) dst) eqn:Hd.
  - apply bool_decide_eq_true in Hd.
    destruct (path_exists (w_fs w) src && bool_decide (src = dst)) eqn:Hsame.
    + apply andb_true_iff in Hsame as [_ Heq%bool_decide_eq_true].
      subst dst. done.
    + destruct (path_exists (w_fs w) (dst ++ [basename src])) eqn:Hex.
      * intros [= <- <-]. split; [apply same_dirs_refl | done].
      * unfold bind, mret, M_ret, ret.
        destruct (os_rename src (dst ++ [basename src]) w) as [[[]|e] w1] eqn:Hrn;
          intros [= <- <-]; eapply os_rename_same_dirs; try exact Hrn; try done;
          intros Hk; apply not_true_iff_false in Hex; apply Hex;
          apply bool_decide_eq_true; rewrite Hk; eauto.
  - apply bool_decide_eq_false in Hd.
    unfold bind, mret, M_ret, ret.
    destruct (os_rename src dst w) as [[[]|e] w1] eqn:Hrn;
      intros [= <- <-]; eapply os_rename_same_dirs; try exact Hrn; done.
Qed.

(** A work item about something that is not a directory moves no
    directory, and logs at most one record, below ERROR. *)
Lemma _move_same_dirs (file dest : path) (w w' : world) (r : result unit) :
  stat_path (w_fs w) file ≠ Some KDir →
  _move file dest w = (r, w') →
  same_dirs (w_fs w) (w_fs w').
Proof.
  intros Hf. unfold _move, try_except.
  unfold mbind, M_bind, bind, log_info, log_warning, emit.
  destruct (shutil_move file dest w) as [[p|e] w1] eqn:Hmv;
    destruct (shutil_move_same_dirs _ _ _ _ _ Hf Hmv) as [Hsame Hlog].
  - by intros [= <- <-].
  - destruct (is_shutil_Error e); [|by intros [= <- <-]].
    match goal with |- context [os_remove file ?w2] =>
      destruct (os_remove file w2) as [r2 w3] eqn:Hrm
    end.
    apply os_remove_same_dirs in Hrm as [Hsame' _].
    + intros Heq. assert (w' = w3) as -> by (destruct r2; congruence).
      by eapply same_dirs_trans.
    + simpl. by rewrite (same_dirs_stat _ _ _ Hsame).
Qed.

Lemma _move_log (file dest : path) (w w' : world) (r : result unit) :
  _move file dest w = (r, w') →
  ∃ new, w_log w' = w_log w ++ new ∧
    ∀ rec, rec ∈ new → levelno rec ≠ ERROR.
Proof.
  unfold _move, try_except.
  unfold mbind, M_bind, bind, log_info, log_warning, emit.
  destruct (shutil_move file dest w) as [[p|e] w1] eqn:Hmv.
  - intros [= <- <-]. simpl. eexists. split.
    + f_equal. unfold shutil_move in Hmv. revert Hmv. unfold_M.
      unfold os_rename. unfold_M. simpl.
      repeat case_match; intros; simplify_eq; done.
    + intros rec ->%list_elem_of_singleton. done.
  - pose proof (shutil_move_raise _ _ _ _ _ Hmv) as ->.
    destruct (is_shutil_Error e).
    + unfold os_remove. unfold_M. simpl.
      intros Heq. eexists. split.
      * repeat case_match; simplify_eq; simpl; reflexivity.
      * intros rec ->%list_elem_of_singleton. done.
    + intros [= <- <-]. exists []. split; [by rewrite app_nil_r|].
      by intros rec ?%elem_of_nil.
Qed.

End Untouched.

Section ScanInvariants.
Context `{Platform}.
Variables (target destination : path) (threads seconds : option Z).

Local Abbreviation step := (step target destination threads seconds).
Local Abbreviation exec := (exec target destination threads seconds).

(** What is left to filter are immediate entries of the source. *)
Lemma exec_entries (w : world) (tr : list label) (s : proc) :
  exec (boot w) tr s →
  ∀ rest f, p_main s = Filtering rest → f ∈ rest → ∃ n, f = target ++ [n].
Proof.
  revert tr s.
  apply (exec_invariant target destination threads seconds
    (λ _ s, ∀ rest f, p_main s = Filtering rest → f ∈ rest →
                      ∃ n, f = target ++ [n])); [done|].
  intros tr' s0 l s' _ IH Hstep rest f.
  destruct Hstep as [s mw Hmain|s e Hmain He|s f0 rest0 Hmain|s f0 rest0 Hmain
    |s Hmain|s q1 t q2 mw Hq|s r1 t r2 r w' Hr|s Hmain Hq Hr
    |s fuel slept Hmain|s Hmain]; simpl; try done; try (by apply IH).
  - intros [= <-] Hin. by apply elem_of_glob in Hin as (_ & _ & ?).
  - intros [= <-] Hin. apply (IH (f0 :: rest0)); [done | by right].
  - intros [= <-] Hin. apply (IH (f0 :: rest0)); [done | by right].
Qed.

(** Every work item ever submitted is about an immediate entry. *)
Lemma exec_submitted_entries (w : world) (tr : list label) (s : proc) :
  exec (boot w) tr s →
  ∀ t, L_submit t ∈ tr → (∃ n, t_file t = target ++ [n]) ∧ t_dest t = destination.
Proof.
  revert tr s.
  apply (exec_invariant target destination threads seconds
    (λ tr _, ∀ t, L_submit t ∈ tr →
       (∃ n, t_file t = target ++ [n]) ∧ t_dest t = destination));
    [by intros t ?%elem_of_nil|].
  intros tr s1 l s2 Hexec IH Hstep t.
  rewrite elem_of_app, list_elem_of_singleton. intros [Hin|Heq]; [by apply IH|].
  subst l.
  inversion Hstep as [| | |s f rest Hmain Hf| | | | | |]; subst. simpl.
  split; [|done].
  eapply exec_entries; [exact Hexec | exact Hmain | by left].
Qed.

(** The loop logs nothing at ERROR level. *)
Lemma exec_no_error_record (w : world) (tr : list label) (s : proc) :
  exec (boot w) tr s →
  ∀ rec, rec ∈ w_log (p_world s) → rec ∈ w_log w ∨ levelno rec ≠ ERROR.
Proof.
  revert tr s.
  apply (exec_invariant target destination threads seconds
    (λ _ s, ∀ rec, rec ∈ w_log (p_world s) →
                   rec ∈ w_log w ∨ levelno rec ≠ ERROR)); [by left|].
  intros tr' s0 l s' _ IH Hstep rec.
  destruct Hstep as [s mw Hmain|s e Hmain He|s f0 rest0 Hmain|s f0 rest0 Hmain
    |s Hmain|s q1 t q2 mw Hq|s r1 t r2 r w' Hr Hm|s Hmain Hq Hr
    |s fuel slept Hmain|s Hmain]; simpl; try (by apply IH).
  destruct (_move_log _ _ _ _ _ Hm) as (new & -> & Hnew).
  rewrite elem_of_app. intros [Hin|Hin]; [by apply IH | right; by apply Hnew].
Qed.

(** No directory is moved, removed or created, links to directories
    included. *)
Lemma exec_dirs_kept (w : world) (tr : list label) (s : proc) :
  exec (boot w) tr s → dirs_kept w s.
Proof.
  revert tr s.
  apply (exec_invariant target destination threads seconds
    (λ _ s, dirs_kept w s)).
  - split; [apply same_dirs_refl | by intros t ?%elem_of_nil].
  - intros tr' s0 l s' _ [Hsame Hlive] Hstep. unfold dirs_kept, live in *.
    destruct Hstep as [s mw Hmain|s e Hmain He|s f0 rest0 Hmain Hf
      |s f0 rest0 Hmain Hf
      |s Hmain|s q1 t q2 mw Hq|s r1 t r2 r w' Hr Hm|s Hmain Hq Hr
      |s fuel slept Hmain|s Hmain]; simpl; try done.
    + (* submit *)
      split; [done|]. intros t.
      rewrite !elem_of_app, list_elem_of_singleton.
      intros [[Hin| ->]|Hin]; [apply Hlive; rewrite elem_of_app; eauto| |
                               apply Hlive; rewrite elem_of_app; eauto].
      simpl. rewrite <- (same_dirs_stat _ _ _ Hsame).
      apply bool_decide_eq_true in Hf. by rewrite Hf.
    + (* start *)
      split; [done|]. intros t' Ht'. apply Hlive. rewrite Hq.
      revert Ht'. list_mem.
    + (* finish *)
      assert (stat_path (w_fs (p_world s)) (t_file t) ≠ Some KDir) as Ht.
      { rewrite (same_dirs_stat _ _ _ Hsame). apply Hlive. rewrite Hr.
        list_mem. }
      split.
      * eapply same_dirs_trans; [exact Hsame|].
        by eapply _move_same_dirs.
      * intros t' Ht'. apply Hlive. rewrite Hr. revert Ht'. list_mem.
Qed.

End ScanInvariants.

(** ** One call of [cmove], from its scan to its return *)

Section Batch.
Context `{Platform}.
Variables (target destination : path) (threads seconds : option Z).

Local Abbreviation step := (step target destination threads seconds).
Local Abbreviation exec := (exec target destination threads seconds).
Local Abbreviation scanning := (scanning target destination).

Lemma elem_of_snoc (tr : list label) (l l' : label) :
  l' ∈ tr ++ [l] ↔ l' ∈ tr ∨ l' = l.
Proof. by rewrite elem_of_app, list_elem_of_singleton. Qed.

Lemma batch_task_inj (k : nat) (d f f' : path) :
  batch_task k d f = batch_task k d f' → f = f'.
Proof. by intros [= ->]. Qed.

(** The state right after the executor is built and the directory listed. *)
Lemma scanning_enter (s0 se : proc) (mw : Z) :
  step s0 (L_enter mw) se →
  live s0 = [] →
  isdir (w_fs (p_world s0)) destination = true →
  scanning se [] se.
Proof.
  intros Hstep Hlive Hd.
  inversion Hstep as [s mw' Hmain Hmw| | | | | | | | |]; subst.
  unfold live in Hlive. apply app_eq_nil in Hlive as [Hq Hr].
  constructor; unfold live; simpl; rewrite ?Hq, ?Hr.
  - done.
  - apply NoDup_glob.
  - intros f Hf. by apply elem_of_glob in Hf as (_ & _ & ?).
  - by exists [].
  - done.
  - constructor.
  - by intros t ?%elem_of_nil.
  - done.
  - by intros t r ?%elem_of_nil.
  - by intros t ?%elem_of_nil.
  - by intros f ?%elem_of_nil.
  - done.
  - by intros _ n r ?%elem_of_nil.
Qed.

Lemma scanning_skip (se s : proc) (tr : list label) (f : path) (rest : list path) :
  scanning se tr s →
  p_main s = Filtering (f :: rest) →
  isfile (w_fs (p_world s)) f = false →
  scanning se (tr ++ [L_skip f]) (set_main s (Filtering rest)).
Proof.
  intros [Hbatch Hnodup Hentry [checked Hsuf] Hdest Hlnd Hlive Hrest Hfin
          Hsub Hskip Hpass Hset] Hmain Hf.
  assert (entries s = f :: rest) as Hes by (unfold entries; by rewrite Hmain).
  rewrite Hes in *.
  assert (f ∈ entries se) as HfE.
  { rewrite Hsuf. apply elem_of_app. right. by left. }
  assert (isfile (w_fs (p_world se)) f = false) as Hfe.
  { rewrite <- Hf. symmetry. apply isfile_ext. apply Hrest. by left. }
  constructor; unfold live; simpl; try done.
  - exists (checked ++ [f]). by rewrite <- (assoc_L (++)).
  - intros t Ht. destruct (Hlive t Ht) as (f' & -> & ? & Hnr & ? & Hnf).
    exists f'. repeat split; try done.
    + intros Hin. apply Hnr. by right.
    + intros r. rewrite elem_of_snoc. intros [?|[=]]. by eapply Hnf.
  - intros f' Hf'. apply Hrest. by right.
  - intros t r. rewrite elem_of_snoc. intros [Hin|[=]].
    destruct (Hfin t r Hin) as (f' & -> & ? & Hnr).
    exists f'. repeat split; try done. intros ?. apply Hnr. by right.
  - intros t. rewrite elem_of_snoc. intros [Hin|[=]]. by apply Hsub.
  - intros f'. rewrite elem_of_snoc. intros [Hin|[= ->]]; [by apply Hskip|done].
  - intros f' Hf'E Hf'r. destruct (decide (f' = f)) as [->|Hne].
    + rewrite Hfe. apply elem_of_snoc. by right.
    + assert (f' ∉ f :: rest) as Hnr.
      { rewrite elem_of_cons. by intros [?|?]. }
      specialize (Hpass f' Hf'E Hnr).
      destruct (isfile (w_fs (p_world se)) f'); apply elem_of_snoc; by left.
  - intros Hne n r. rewrite elem_of_snoc. intros [Hin|[=]]. by apply Hset.
Qed.

Lemma scanning_submit (se s : proc) (tr : list label) (f : path) (rest : list path) :
  scanning se tr s →
  p_main s = Filtering (f :: rest) →
  isfile (w_fs (p_world s)) f = true →
  scanning se (tr ++ [L_submit (submitted destination s f)])
    {| p_world := p_world s; p_clock := p_clock s; p_batch := p_batch s;
       p_main := Filtering rest;
       p_queue := p_queue s ++ [submitted destination s f];
       p_running := p_running s; p_futures := p_futures s |}.
Proof.
  intros [Hbatch Hnodup Hentry [checked Hsuf] Hdest Hlnd Hlive Hrest Hfin
          Hsub Hskip Hpass Hset] Hmain Hf.
  assert (entries s = f :: rest) as Hes by (unfold entries; by rewrite Hmain).
  rewrite Hes in *.
  assert (f ∈ entries se) as HfE.
  { rewrite Hsuf. apply elem_of_app. right. by left. }
  assert (isfile (w_fs (p_world se)) f = true) as Hfe.
  { rewrite <- Hf. symmetry. apply isfile_ext. apply Hrest. by left. }
  assert (f ∉ rest) as Hfr.
  { rewrite Hsuf in Hnodup. apply NoDup_app in Hnodup as (_ & _ & Hnd).
    by apply NoDup_cons in Hnd as [? _]. }
  assert (submitted destination s f = batch_task (p_batch se) destination f)
    as Htask.
  { unfold submitted, batch_task. by rewrite Hbatch. }
  rewrite Htask.
  assert (batch_task (p_batch se) destination f ∉ live s) as Hfresh.
  { intros Hin. destruct (Hlive _ Hin) as (f' & Heq & _ & Hnr & _).
    apply batch_task_inj in Heq as <-. apply Hnr. by left. }
  constructor; unfold live; simpl; try done.
  - exists (checked ++ [f]). by rewrite <- (assoc_L (++)).
  - assert ((p_queue s ++ [batch_task (p_batch se) destination f])
              ++ p_running s
            ≡ₚ batch_task (p_batch se) destination f :: live s) as ->.
    { unfold live. rewrite <- (assoc_L (++)). simpl.
      by rewrite <- Permutation_middle. }
    by apply NoDup_cons.
  - intros t. rewrite !elem_of_app, list_elem_of_singleton.
    intros Ht.
    assert (t ∈ live s ∨ t = batch_task (p_batch se) destination f) as [Hin| ->].
    { unfold live. rewrite elem_of_app. tauto. }
    + destruct (Hlive t Hin) as (f' & -> & ? & Hnr & ? & Hnf).
      exists f'. repeat split; try done.
      * intros ?. apply Hnr. by right.
      * intros r. rewrite elem_of_snoc. intros [?|[=]]. by eapply Hnf.
    + exists f. repeat split; try done.
      intros r. rewrite elem_of_snoc. intros [Hin|[=]].
      destruct (Hfin _ _ Hin) as (f' & Heq & _ & Hnr).
      apply batch_task_inj in Heq as <-. apply Hnr. by left.
  - intros f' Hf'. apply Hrest. by right.
  - intros t r. rewrite elem_of_snoc. intros [Hin|[=]].
    destruct (Hfin t r Hin) as (f' & -> & ? & Hnr).
    exists f'. repeat split; try done. intros ?. apply Hnr. by right.
  - intros t. rewrite elem_of_snoc. intros [Hin|[= ->]]; [by apply Hsub|].
    by exists f.
  - intros f'. rewrite elem_of_snoc. intros [Hin|[=]]. by apply Hskip.
  - intros f' Hf'E Hf'r. destruct (decide (f' = f)) as [->|Hne].
    + rewrite Hfe. apply elem_of_snoc. by right.
    + assert (f' ∉ f :: rest) as Hnr.
      { rewrite elem_of_cons. by intros [?|?]. }
      specialize (Hpass f' Hf'E Hnr).
      destruct (isfile (w_fs (p_world se)) f'); apply elem_of_snoc; by left.
  - intros Hne n r. rewrite elem_of_snoc. intros [Hin|[=]]. by apply Hset.
Qed.

(** Steps that leave the world and the trace's finished items alone. *)
Lemma scanning_quiet (se s s' : proc) (tr : list label) (l : label) :
  scanning se tr s →
  p_world s' = p_world s → p_batch s' = p_batch s →
  entries s' = [] → entries s = [] →
  live s' ≡ₚ live s →
  (∀ t r, l ≠ L_finish t r) → (∀ t, l ≠ L_submit t) → (∀ f, l ≠ L_skip f) →
  scanning se (tr ++ [l]) s'.
Proof.
  intros [Hbatch Hnodup Hentry [checked Hsuf] Hdest Hlnd Hlive Hrest Hfin
          Hsub Hskip Hpass Hset] Hw Hb He' He Hperm Hl1 Hl2 Hl3.
  constructor; rewrite ?Hw, ?Hb, ?He'; try done.
  - exists checked. by rewrite Hsuf, He.
  - by rewrite Hperm.
  - intros t Ht. rewrite Hperm in Ht.
    destruct (Hlive t Ht) as (f' & -> & ? & Hnr & ? & Hnf).
    exists f'. repeat split; try done.
    + by intros ?%elem_of_nil.
    + intros r. rewrite elem_of_snoc. intros [?|Heq]; [by eapply Hnf|].
      by eapply Hl1.
  - by intros f ?%elem_of_nil.
  - intros t r. rewrite elem_of_snoc. intros [Hin|Heq]; [|by edestruct Hl1].
    destruct (Hfin t r Hin) as (f' & -> & ? & Hnr).
    exists f'. repeat split; try done. by intros ?%elem_of_nil.
  - intros t. rewrite elem_of_snoc. intros [Hin|Heq]; [by apply Hsub|].
    by edestruct Hl2.
  - intros f. rewrite elem_of_snoc. intros [Hin|Heq]; [by apply Hskip|].
    by edestruct Hl3.
  - intros f HfE _. rewrite He in Hpass.
    assert (f ∉ @nil path) as Hn by (by intros ?%elem_of_nil).
    specialize (Hpass f HfE Hn).
    destruct (isfile (w_fs (p_world se)) f); apply elem_of_snoc; by left.
  - intros Hne n r. rewrite elem_of_snoc. intros [Hin|Heq]; [by apply Hset|].
    by edestruct Hl1.
Qed.

Lemma scanning_start (se s : proc) (tr : list label)
    (q1 q2 : list task) (t : task) :
  scanning se tr s →
  p_queue s = q1 ++ t :: q2 →
  scanning se (tr ++ [L_start t])
    {| p_world := p_world s; p_clock := p_clock s; p_batch := p_batch s;
       p_main := p_main s;
       p_queue := q1 ++ q2; p_running := t :: p_running s;
       p_futures := p_futures s |}.
Proof.
  intros [Hbatch Hnodup Hentry [checked Hsuf] Hdest Hlnd Hlive Hrest Hfin
          Hsub Hskip Hpass Hset] Hq.
  assert ((q1 ++ q2) ++ t :: p_running s ≡ₚ live s) as Hperm.
  { unfold live. rewrite Hq. by rewrite <- !Permutation_middle. }
  constructor; unfold live; simpl;
    change (entries {| p_world := p_world s; p_clock := p_clock s;
                       p_batch := p_batch s; p_main := p_main s;
                       p_queue := q1 ++ q2; p_running := t :: p_running s;
                       p_futures := p_futures s |}) with (entries s);
    try done.
  - by exists checked.
  - by rewrite Hperm.
  - intros t' Ht'. rewrite Hperm in Ht'.
    destruct (Hlive t' Ht') as (f' & -> & ? & Hnr & ? & Hnf).
    exists f'. repeat split; try done.
    intros r. rewrite elem_of_snoc. intros [Hin'|[=]]. exact (Hnf r Hin').
  - intros t' r. rewrite elem_of_snoc. intros [Hin|[=]]. by apply (Hfin t' r).
  - intros t'. rewrite elem_of_snoc. intros [Hin|[=]]. by apply Hsub.
  - intros f. rewrite elem_of_snoc. intros [Hin|[=]]. by apply Hskip.
  - intros f HfE Hfr. specialize (Hpass f HfE Hfr).
    destruct (isfile (w_fs (p_world se)) f); apply elem_of_snoc; by left.
  - intros Hne n r. rewrite elem_of_snoc. intros [Hin|[=]]. by apply Hset.
Qed.

Lemma snoc_ne_self (d : path) (n : string) : d ≠ d ++ [n].
Proof.
  intros Heq. apply (f_equal length) in Heq.
  rewrite length_app in Heq. simpl in Heq. lia.
Qed.

Lemma scanning_finish (se s : proc) (tr : list label)
    (r1 r2 : list task) (t : task) (r : result unit) (w' : world) :
  scanning se tr s →
  p_running s = r1 ++ t :: r2 →
  _move (t_file t) (t_dest t) (p_world s) = (r, w') →
  scanning se (tr ++ [L_finish t r])
    {| p_world := w'; p_clock := p_clock s; p_batch := p_batch s;
       p_main := p_main s;
       p_queue := p_queue s; p_running := r1 ++ r2;
       p_futures := p_futures s ++ [(t, r)] |}.
Proof.
  intros [Hbatch Hnodup Hentry [checked Hsuf] Hdest Hlnd Hlive Hrest Hfin
          Hsub Hskip Hpass Hset] Hr Hm.
  remember {| p_world := w'; p_clock := p_clock s; p_batch := p_batch s;
              p_main := p_main s;
              p_queue := p_queue s; p_running := r1 ++ r2;
              p_futures := p_futures s ++ [(t, r)] |} as s' eqn:Hs'.
  assert (p_world s' = w') as Hw' by (by subst s').
  assert (p_batch s' = p_batch s) as Hb' by (by subst s').
  assert (entries s' = entries s) as He' by (by subst s').
  assert (live s' = p_queue s ++ r1 ++ r2) as Hl' by (by subst s').
  clear Hs'.
  assert (live s ≡ₚ t :: (p_queue s ++ r1 ++ r2)) as Hperm.
  { unfold live. rewrite Hr. by rewrite <- !Permutation_middle. }
  rewrite Hperm in Hlnd. apply NoDup_cons in Hlnd as [Hfresh Hlnd'].
  destruct (Hlive t) as (f & -> & HfE & Hfr & Hf & Hnf).
  { rewrite Hperm. by left. }
  destruct (Hentry f HfE) as [n ->]. simpl in Hm.
  pose proof (_move_frame _ _ _ _ _ Hf Hdest Hm) as Hframe.
  rewrite basename_snoc in Hframe.
  assert (∀ f', f' ∈ entries se → f' ≠ target ++ [n] →
                f' ≠ destination ++ [n]) as Hother.
  { intros f' Hf'E Hne Heq. destruct (Hentry f' Hf'E) as [n' ->].
    apply app_inj_tail in Heq as [Heq ->]. done. }
  constructor; rewrite ?Hw', ?Hb', ?He', ?Hl'; try done.
  - by exists checked.
  - rewrite <- Hdest. apply isdir_ext. apply Hframe.
    + intros ->. by eapply isfile_isdir_ne.
    + apply snoc_ne_self.
  - intros t' Ht'.
    assert (t' ≠ batch_task (p_batch se) destination (target ++ [n])) as Hne
      by (by intros ->).
    destruct (Hlive t') as (f' & -> & Hf'E & Hf'r & Hf' & Hnf').
    { rewrite Hperm. by right. }
    assert (f' ≠ target ++ [n]) as Hne' by (by intros ->).
    exists f'. repeat split; try done.
    + rewrite <- Hf'. apply isfile_ext. apply Hframe; [done|].
      by apply Hother.
    + intros r'. rewrite elem_of_snoc. intros [Hin|[= Heq _]].
      * exact (Hnf' r' Hin).
      * done.
  - intros f' Hf'. rewrite <- (Hrest f' Hf'). apply Hframe.
    + by intros ->.
    + apply Hother.
      * rewrite Hsuf. apply elem_of_app. by right.
      * by intros ->.
  - intros t' r'. rewrite elem_of_snoc. intros [Hin|[= -> ->]].
    + by apply (Hfin t' r').
    + by exists (target ++ [n]).
  - intros t'. rewrite elem_of_snoc. intros [Hin|[=]]. by apply Hsub.
  - intros f'. rewrite elem_of_snoc. intros [Hin|[=]]. by apply Hskip.
  - intros f' Hf'E Hf'r. specialize (Hpass f' Hf'E Hf'r).
    destruct (isfile (w_fs (p_world se)) f'); apply elem_of_snoc; by left.
  - intros Hne n0 r0. rewrite elem_of_snoc. intros [Hin|[= Heq ->]].
    + (* finished earlier: its two names are not those of [t] *)
      assert (n0 ≠ n) as Hn0.
      { intros ->. exact (Hnf r0 Hin). }
      pose proof (Hset Hne n0 r0 Hin) as Hold.
      unfold settled in Hold |- *.
      assert (present_in (w_fs w') target n0
              = present_in (w_fs (p_world s)) target n0) as ->.
      { apply path_exists_ext, Hframe.
        - intros Heq%app_inj_tail. by destruct Heq.
        - intros Heq%app_inj_tail. by destruct Heq. }
      assert (present_in (w_fs w') destination n0
              = present_in (w_fs (p_world s)) destination n0) as ->.
      { apply path_exists_ext, Hframe.
        - intros Heq%app_inj_tail. destruct Heq. by apply Hne.
        - intros Heq%app_inj_tail. by destruct Heq. }
      exact Hold.
    + apply app_inj_tail in Heq as [_ ->].
      by eapply _move_settles.
Qed.

Lemma scanning_step (se s s' : proc) (tr : list label) (l : label) :
  scanning se tr s → step s l s' → in_batch l = true →
  scanning se (tr ++ [l]) s'.
Proof.
  intros Hsc Hstep Hl.
  destruct Hstep as [s mw Hmain|s e Hmain He|s f rest Hmain Hf
    |s f rest Hmain Hf
    |s Hmain|s q1 t q2 mw Hq|s r1 t r2 r w' Hr Hm|s Hmain Hq Hr
    |s fuel slept Hmain|s Hmain]; try done.
  - by apply scanning_skip.
  - by apply scanning_submit.
  - apply (scanning_quiet se s); try done.
    unfold entries. by rewrite Hmain.
  - by apply scanning_start.
  - by apply scanning_finish.
  - apply (scanning_quiet se s); try done.
    unfold entries. by rewrite Hmain.
Qed.

Lemma exec_scanning (se s : proc) (tr : list label) :
  scanning se [] se →
  exec se tr s → Forall (λ l, in_batch l = true) tr →
  scanning se tr s.
Proof.
  intros Hinit Hexec. induction Hexec as [|s0 tr s1 l s2 Hexec IH Hstep].
  - done.
  - rewrite Forall_app, Forall_singleton. intros [Htr Hl].
    eapply scanning_step; eauto.
Qed.

(** A call of [cmove] in a run of the loop: [se] is the state in which the
    call has built its executor and listed the source, [tr] the steps of
    the call since. *)
Lemma batch_scanning (w : world) (tr0 tr : list label) (s0 se s : proc)
    (mw : Z) :
  exec (boot w) tr0 s0 →
  step s0 (L_enter mw) se →
  isdir (w_fs w) destination = true →
  exec se tr s → Forall (λ l, in_batch l = true) tr →
  scanning se tr s ∧ isolated s ∧ accounted tr s ∧
  entries se = glob (w_fs (p_world se)) target.
Proof.
  intros Hexec0 Henter Hd Hexec Hall.
  pose proof (exec_isolated _ _ _ _ _ _ _ Hexec0) as [_ Hidle].
  pose proof (exec_dirs_kept _ _ _ _ _ _ _ Hexec0) as [Hsame _].
  assert (p_main s0 = LoopTop ∧
          entries se = glob (w_fs (p_world se)) target) as [Hmain Hglob].
  { by inversion Henter; subst. }
  assert (scanning se [] se) as Hinit.
  { eapply scanning_enter; [exact Henter | by apply Hidle; left|].
    apply bool_decide_eq_true. apply (same_dirs_stat _ _ _ Hsame).
    by apply bool_decide_eq_true in Hd. }
  split; [by apply exec_scanning|]. split; [|split; [|done]].
  - eapply (exec_isolated _ _ _ _ w).
    eapply exec_app; [|exact Hexec].
    eapply exec_snoc; [exact Hexec0 | exact Henter].
  - by eapply exec_accounted.
Qed.

(** When the call has returned, the work item of every regular file of the
    listing has finished. *)
Lemma batch_finishes (se s : proc) (tr : list label) (f : path) :
  scanning se tr s → isolated s → accounted tr s →
  p_main s = Waiting →
  f ∈ entries se →
  isfile (w_fs (p_world se)) f = true →
  ∃ r, L_finish (batch_task (p_batch se) destination f) r ∈ tr.
Proof.
  intros Hsc [_ Hidle] Hacc Hmain HfE Hf.
  assert (entries s = []) as He by (unfold entries; by rewrite Hmain).
  pose proof (sc_passed _ _ _ _ _ Hsc f HfE) as Hpass.
  rewrite He, Hf in Hpass.
  specialize (Hpass (not_elem_of_nil _)).
  assert (live s = []) as Hlive by (apply Hidle; by right).
  apply app_eq_nil in Hlive as [Hq Hr].
  destruct (Hacc _ Hpass) as [Hin|[Hin|Hfin]]; [| |done].
  - rewrite Hq in Hin. by apply elem_of_nil in Hin.
  - rewrite Hr in Hin. by apply elem_of_nil in Hin.
Qed.

(** How the call treats an entry of its listing, by what the entry was
    when the source was listed: once the filter has passed it, a regular
    file has been submitted and not passed over, and anything else has
    been passed over and not submitted. *)
Lemma batch_classifies (se s : proc) (tr : list label) (f : path) :
  scanning se tr s →
  f ∈ entries se → f ∉ entries s →
  if isfile (w_fs (p_world se)) f
  then L_submit (batch_task (p_batch se) destination f) ∈ tr ∧
       (L_skip f ∉ tr)
  else L_skip f ∈ tr ∧ ∀ t, L_submit t ∈ tr → t_file t ≠ f.
Proof.
  intros Hsc HfE Hfr.
  pose proof (sc_passed _ _ _ _ _ Hsc f HfE Hfr) as Hpass.
  destruct (isfile (w_fs (p_world se)) f) eqn:Hf.
  - split; [done|]. intros Hskip.
    apply (sc_skipped _ _ _ _ _ Hsc) in Hskip as [_ Hskip]. congruence.
  - split; [done|]. intros t Ht Heq.
    apply (sc_submitted _ _ _ _ _ Hsc) in Ht as (f' & -> & _ & Hf').
    simpl in Heq. congruence.
Qed.

End Batch.

(** * The specification's claims *)

(** ** The worker *)




(** ** The batch *)




(** ** [wait] *)

Lemma wait_loop_S (fuel : nat) (t : rich_task) (slept : Z) :
  wait_loop (S fuel) t slept =
    if finished t then Some slept
    else wait_loop fuel (update t 1 slept) (slept + 1).
Proof. reflexivity. Qed.

(** With the task unfinished, the loop of [wait] runs [total - completed]
    times, and once when that is not positive. *)
Lemma wait_loop_unfinished (k : nat) (tot c slept : Z) :
  tot - c ≤ Z.of_nat (S k) →
  wait_loop (S (S k))
    {| total := tot; completed := c; finished_time := None |} slept
  = Some (slept + Z.max 1 (tot - c)).
Proof.
  revert c slept. induction k as [|k IH]; intros c slept Hle;
    rewrite wait_loop_S; unfold finished at 1, update;
    cbn [total completed finished_time];
    rewrite bool_decide_eq_false_2 by (by intros [? ?]);
    destruct (tot <=? c + 1) eqn:Hc.
  - rewrite wait_loop_S. unfold finished. cbn [finished_time].
    rewrite bool_decide_eq_true_2 by eauto. f_equal. lia.
  - lia.
  - rewrite wait_loop_S. unfold finished. cbn [finished_time].
    rewrite bool_decide_eq_true_2 by eauto. f_equal. lia.
  - rewrite IH by lia. f_equal. lia.
Qed.

(** [wait] returns, having slept [seconds] when that is positive, one
    second when it is negative, and not at all when it is zero or unset. *)
Lemma wait_total (seconds : option Z) :
  ∃ fuel, wait fuel seconds =
    Some (if truthy seconds then Z.max 1 (default 0 seconds) else 0).
Proof.
  unfold wait. destruct (truthy seconds) eqn:Ht; simpl.
  - destruct seconds as [z|]; [|done]. simpl.
    exists (S (S (Z.to_nat z))). unfold add_task.
    rewrite wait_loop_unfinished by lia. f_equal. lia.
  - by exists O.
Qed.

(** C8, as the code has it.  When [sleep_interval] is zero or unset,
    [wait] returns at once without sleeping, and the main thread goes from
    one scan to the next with the clock where it was. *)
Theorem falsy_interval_skips_the_wait `{Platform}
    (target destination : path) (threads seconds : option Z) :
  seconds = None ∨ seconds = Some 0 →
  (∀ fuel, wait fuel seconds = Some 0) ∧
  (∀ s slept s',
     step target destination threads seconds s (L_wait slept) s' →
     slept = 0 ∧ p_clock s' = p_clock s ∧ p_world s' = p_world s ∧
     p_main s' = LoopTop) ∧
  (∀ s, p_main s = Waiting →
     ∃ s', step target destination threads seconds s (L_wait 0) s').
Proof.
  intros Hsec.
  assert (∀ fuel, wait fuel seconds = Some 0) as Hwait.
  { intros fuel. by destruct Hsec as [-> | ->]. }
  split; [done|]. split.
  - intros s slept s' Hstep.
    inversion Hstep as [| | | | | | | |s0 fuel slept0 Hmain Hw|]; subst.
    rewrite Hwait in Hw. injection Hw as <-. simpl.
    repeat split; try done. lia.
  - intros s Hmain. eexists. by apply (step_wait _ _ _ _ s O 0).
Qed.

Lemma falsy_interval_skips_the_wait_witness :
  (Some 0 = None ∨ Some 0 = Some 0) ∧ wait 7 (Some 0) = Some 0.
Proof.
  split; [by right|].
  apply (@falsy_interval_skips_the_wait reliable ["src"] ["dst"] None (Some 0)).
  by right.
Defined.

(** C8 as stated fails for a negative interval: it is truthy, so [wait]
    enters its loop, whose first round finishes the progress task and then
    sleeps one second. *)
Lemma negative_interval_sleeps_one_second :
  wait 2 (Some (-1)) = Some 1 ∧
  (∀ fuel, wait fuel (Some (-1)) ≠ Some 0).
Proof.
  split; [reflexivity|].
  intros [|[|fuel]]; vm_compute; discriminate.
Qed.

(** ** Start-up *)

(** A directory argument that does not exist is reported at ERROR level and
    ends [main] through [raise SystemExit()], which carries no code. *)
Lemma main_head_invalid_directory (av : argv) (w : world) (t d : path) :
  a_target av = Some t →
  a_destination av = Some d →
  isdir (w_fs w) t = false ∨ isdir (w_fs w) d = false →
  ∃ w', main_head av w = (Raise (SystemExit None), w') ∧
    w_fs w' = w_fs w ∧
    ∃ rec, rec ∈ w_log w' ∧ levelno rec = ERROR.
Proof.
  intros Ht Hd Hbad.
  unfold main_head, parse_args, dir_validator. unfold_M. simpl.
  rewrite Ht, Hd. simpl.
  destruct (isdir (w_fs w) t) eqn:Hit; simpl;
    destruct (isdir (w_fs w) d) eqn:Hid; simpl.
  - by destruct Hbad.
  - eexists. split; [done|]. split; [done|].
    exists {| levelno := ERROR; msg := is_not_a_directory d |}.
    split; [|done]. simpl. apply elem_of_app. right. by left.
  - eexists. split; [done|]. split; [done|].
    exists {| levelno := ERROR; msg := is_not_a_directory t |}.
    split; [|done]. simpl. apply elem_of_app. right. by left.
  - eexists. split; [done|]. split; [done|].
    exists {| levelno := ERROR; msg := is_not_a_directory d |}.
    split; [|done]. simpl. apply elem_of_app. right. by left.
Qed.

(** C4 on the code: with a source path that is not a directory, [main]
    logs an error and leaves before its loop, and the exit status is 0. *)
Theorem missing_source_directory_exits_with_status_zero :
  let av := {| a_target := Some ["nowhere"]; a_destination := Some ["dst"];
               a_sleep := None; a_threads := None; a_quiet := 0%nat;
               a_log := None |} in
  isdir (w_fs scenario) ["nowhere"] = false ∧
  main_head av scenario =
    (Raise (SystemExit None),
     {| w_fs := scenario_fs;
        w_log := [{| levelno := ERROR;
                     msg := is_not_a_directory ["nowhere"] |}] |}) ∧
  exit_status (SystemExit None) = 0 ∧
  (∀ tr s, @main_runs reliable av scenario tr s →
           tr = [] ∧ p_main s = Exited 0).
Proof.
  intros av.
  assert (main_head av scenario =
    (Raise (SystemExit None),
     {| w_fs := scenario_fs;
        w_log := [{| levelno := ERROR;
                     msg := is_not_a_directory ["nowhere"] |}] |})) as Hhead
    by (vm_compute; reflexivity).
  split; [vm_compute; reflexivity|]. split; [exact Hhead|].
  split; [reflexivity|].
  intros tr s Hrun. destruct Hrun as [e w' He|args w' t d tr s He].
  - rewrite Hhead in He. injection He as <- <-. done.
  - rewrite Hhead in He. discriminate.
Qed.

(** ** The pool and the loop *)

(** The first scenario of the specification, replayed. *)
Lemma two_files_run :
  @exec reliable ["src"] ["dst"] (Some 2) None
    (boot two_files) two_files_schedule two_files_drained.
Proof. apply replay_sound. vm_compute. reflexivity. Qed.

Lemma two_files_return :
  @step reliable ["src"] ["dst"] (Some 2) None
    two_files_drained L_return (set_main two_files_drained Waiting).
Proof. apply step_fn_sound. vm_compute. reflexivity. Qed.

(** C5. [cmove] returns only when every work item submitted so far has
    finished and left its outcome in its future.  Hence every unfinished
    work item belongs to the call in progress, and between two calls there
    is none: two batches never overlap. *)
Theorem cmove_returns_after_its_tasks `{Platform}
    (target destination : path) (threads seconds : option Z)
    (w : world) (tr : list label) (s : proc) :
  exec target destination threads seconds (boot w) tr s →
  (∀ s', step target destination threads seconds s L_return s' →
     live s' = [] ∧
     ∀ t, L_submit t ∈ tr → ∃ r, L_finish t r ∈ tr ∧ (t, r) ∈ p_futures s') ∧
  (∀ t, t ∈ live s → t_batch t = p_batch s) ∧
  (p_main s = LoopTop ∨ p_main s = Waiting → live s = []).
Proof.
  intros Hexec.
  pose proof (exec_isolated _ _ _ _ _ _ _ Hexec) as [Hb Hm].
  pose proof (exec_accounted _ _ _ _ _ _ _ Hexec) as Hsub.
  pose proof (exec_recorded _ _ _ _ _ _ _ Hexec) as Hfut.
  split; [|done].
  intros s' Hret.
  inversion Hret as [| | | | | | |s0 Hmain Hq Hr| |]; subst. simpl.
  rewrite of_batch_all in Hq
    by (intros t Ht; apply Hb; unfold live; rewrite elem_of_app; eauto).
  rewrite of_batch_all in Hr
    by (intros t Ht; apply Hb; unfold live; rewrite elem_of_app; eauto).
  split; [unfold live; simpl; by rewrite Hq, Hr|].
  intros t Ht. destruct (Hsub t Ht) as [Hin|[Hin|[r Hin]]].
  - rewrite Hq in Hin. by apply elem_of_nil in Hin.
  - rewrite Hr in Hin. by apply elem_of_nil in Hin.
  - exists r. split; [done|]. by apply Hfut.
Qed.

Lemma cmove_returns_after_its_tasks_witness :
  @exec reliable ["src"] ["dst"] (Some 2) None
    (boot two_files) two_files_schedule two_files_drained ∧
  live (set_main two_files_drained Waiting) = [] ∧
  ∀ t, L_submit t ∈ two_files_schedule →
       ∃ r, L_finish t r ∈ two_files_schedule.
Proof.
  split; [exact two_files_run|].
  destruct (@cmove_returns_after_its_tasks reliable ["src"] ["dst"] (Some 2)
              None two_files two_files_schedule two_files_drained two_files_run)
    as [Hret _].
  destruct (Hret _ two_files_return) as [Hlive Hsub].
  split; [exact Hlive|].
  intros t Ht. destruct (Hsub t Ht) as (r & Hr & _). by exists r.
Defined.

(** The constructor of the pool only raises [ValueError]. *)
Lemma ThreadPoolExecutor_Raise `{Platform} (threads : option Z) (e : exn) :
  ThreadPoolExecutor threads = Raise e →
  e = ValueError "max_workers must be greater than 0" ∧
  ∃ n, threads = Some n ∧ n ≤ 0.
Proof.
  unfold ThreadPoolExecutor. destruct threads as [n|].
  - destruct (Z.leb_spec n 0) as [Hn|Hn]; [|done]. intros [= <-].
    split; [done|]. by exists n.
  - destruct (Z.leb_spec (Z.min 32 (cpu_count_or_1 + 4)) 0) as [Hn|Hn];
      [|done].
    unfold cpu_count_or_1 in Hn. destruct cpu_count as [[|c]|]; lia.
Qed.




(** C9. Once in its loop, the process ends with status 0 only through a
    keyboard interrupt; the one other way out is the uncaught
    [ValueError] of the pool's constructor, with status 1.  An interrupt
    can be taken in every state of the loop, ends the process with status
    0, and logs nothing. *)
Theorem interrupt_is_the_only_clean_exit `{Platform}
    (target destination : path) (threads seconds : option Z)
    (w : world) (tr : list label) (s : proc) :
  exec target destination threads seconds (boot w) tr s →
  (∀ status, p_main s = Exited status →
     (status = 0 ∧ L_interrupt ∈ tr) ∨
     (status = 1 ∧ ∃ e, L_crash e ∈ tr)) ∧
  ((∀ status, p_main s ≠ Exited status) →
     ∃ s', step target destination threads seconds s L_interrupt s') ∧
  (∀ s', step target destination threads seconds s L_interrupt s' →
     p_main s' = Exited 0 ∧ p_world s' = p_world s).
Proof.
  intros Hexec. split; [|split].
  - revert tr s Hexec.
    apply (exec_invariant target destination threads seconds
      (λ tr s, ∀ status, p_main s = Exited status →
         (status = 0 ∧ L_interrupt ∈ tr) ∨
         (status = 1 ∧ ∃ e, L_crash e ∈ tr))); [done|].
    intros tr s l s' _ IH Hstep status.
    assert (p_main s = Exited status →
            (status = 0 ∧ L_interrupt ∈ tr ++ [l]) ∨
            (status = 1 ∧ ∃ e, L_crash e ∈ tr ++ [l])) as Hold.
    { intros Hmain. destruct (IH _ Hmain) as [[-> Hin]|[-> [e Hin]]].
      - left. split; [done|]. apply elem_of_app. by left.
      - right. split; [done|]. exists e. apply elem_of_app. by left. }
    destruct Hstep as [s mw Hmain|s e Hmain He|s f rest Hmain|s f rest Hmain
      |s Hmain|s q1 t q2 mw Hq|s r1 t r2 r w' Hr|s Hmain Hq Hr
      |s fuel slept Hmain|s Hmain]; simpl; try done.
    + intros [= <-]. right.
      destruct (ThreadPoolExecutor_Raise _ _ He) as [-> _].
      split; [done|]. eexists. apply elem_of_app. right. by left.
    + intros [= <-]. left. split; [done|].
      apply elem_of_app. right. by left.
  - intros Hrun. eexists. by apply step_interrupt.
  - intros s' Hstep. by inversion Hstep; subst.
Qed.

Lemma interrupt_is_the_only_clean_exit_witness :
  @exec reliable ["src"] ["dst"] (Some 2) None
    (boot two_files) two_files_schedule two_files_drained ∧
  ∃ s', @step reliable ["src"] ["dst"] (Some 2) None
          two_files_drained L_interrupt s' ∧ p_main s' = Exited 0.
Proof.
  split; [exact two_files_run|].
  destruct (@interrupt_is_the_only_clean_exit reliable ["src"] ["dst"]
              (Some 2) None two_files two_files_schedule two_files_drained
              two_files_run) as (_ & Hcan & Hgo).
  destruct Hcan as [s' Hs']; [discriminate|].
  exists s'. split; [exact Hs'|]. by apply Hgo.
Defined.

(** ** The scan *)

Lemma scan_prefix_run :
  @exec reliable ["src"] ["dst"] None None
    (boot scenario) scan_prefix scan_at_link.
Proof. apply replay_sound. vm_compute. reflexivity. Qed.

(** C7. What [cmove] filters are the immediate entries of the source
    directory.  A work item is submitted only for an entry that
    [os.path.isfile] accepts at that moment, and every submitted work item
    is about such an entry, to be moved to the destination.  Any other
    entry is passed over with the world, the log included, and the pool as
    they were.  The loop never logs at ERROR level, and no directory, nor
    link to one, is ever moved, removed or created. *)
Theorem scan_is_one_level_and_regular_files_only `{Platform}
    (target destination : path) (threads seconds : option Z)
    (w : world) (tr : list label) (s : proc) :
  exec target destination threads seconds (boot w) tr s →
  (∀ rest f, p_main s = Filtering rest → f ∈ rest → ∃ n, f = target ++ [n]) ∧
  (∀ t s', step target destination threads seconds s (L_submit t) s' →
     isfile (w_fs (p_world s)) (t_file t) = true ∧
     (∃ n, t_file t = target ++ [n]) ∧ t_dest t = destination) ∧
  (∀ f s', step target destination threads seconds s (L_skip f) s' →
     isfile (w_fs (p_world s)) f = false ∧
     p_world s' = p_world s ∧ live s' = live s ∧
     p_futures s' = p_futures s) ∧
  (∀ t, L_submit t ∈ tr →
     (∃ n, t_file t = target ++ [n]) ∧ t_dest t = destination) ∧
  (∀ rec, rec ∈ w_log (p_world s) → rec ∈ w_log w ∨ levelno rec ≠ ERROR) ∧
  same_dirs (w_fs w) (w_fs (p_world s)).
Proof.
  intros Hexec.
  pose proof (exec_entries _ _ _ _ _ _ _ Hexec) as Hentries.
  split; [exact Hentries|]. split; [|split; [|split; [|split]]].
  - intros t s' Hstep.
    inversion Hstep as [| | |s0 f rest Hmain Hf| | | | | |]; subst. simpl.
    split; [done|]. split; [|done].
    apply (Hentries (f :: rest)); [done | by left].
  - intros f s' Hstep.
    by inversion Hstep as [| |s0 f0 rest Hmain Hf| | | | | | |]; subst.
  - by eapply exec_submitted_entries.
  - by eapply exec_no_error_record.
  - by eapply exec_dirs_kept.
Qed.

Lemma scan_is_one_level_and_regular_files_only_witness :
  @exec reliable ["src"] ["dst"] None None
    (boot scenario) scan_prefix scan_at_link ∧
  (∀ t, L_submit t ∈ scan_prefix → ∃ n, t_file t = ["src"] ++ [n]) ∧
  same_dirs scenario_fs (w_fs (p_world scan_at_link)).
Proof.
  split; [exact scan_prefix_run|].
  destruct (@scan_is_one_level_and_regular_files_only reliable ["src"] ["dst"]
              None None scenario scan_prefix scan_at_link scan_prefix_run)
    as (_ & _ & _ & Hsub & _ & Hdirs).
  split; [|exact Hdirs].
  intros t Ht. by destruct (Hsub t Ht).
Defined.



(** ** No file lost, none duplicated *)

Lemma two_files_enter :
  @step reliable ["src"] ["dst"] (Some 2) None
    (boot two_files) (L_enter 2) two_files_entered.
Proof. apply step_fn_sound. vm_compute. reflexivity. Qed.

Lemma two_files_batch_run :
  @exec reliable ["src"] ["dst"] (Some 2) None
    two_files_entered (two_files_batch ++ [L_return])
    (set_main two_files_drained Waiting).
Proof. apply replay_sound. vm_compute. reflexivity. Qed.




(** * Further properties of the code *)

(** ** What a call of [cmove] does to each name *)

Section Carried.
Context `{Platform}.
Variables (target destination : path) (threads seconds : option Z).

Local Abbreviation step := (step target destination threads seconds).
Local Abbreviation exec := (exec target destination threads seconds).
Local Abbreviation scanning := (scanning target destination).
Local Abbreviation carried := (carried target destination).

Lemma tracked_step (tr : list label) (s s' : proc) (l : label) :
  tracked tr s → step s l s' → tracked (tr ++ [l]) s'.
Proof.
  intros [Hlive Hfin] Hstep. unfold tracked, live in *.
  destruct Hstep as [s mw Hmain|s e Hmain He|s f rest Hmain Hf
    |s f rest Hmain Hf
    |s Hmain|s q1 t q2 mw Hq|s r1 t r2 r w' Hr Hm|s Hmain Hq Hr
    |s fuel slept Hmain|s Hmain]; simpl;
    (split; [intros t0 Ht0 | intros t0 r0]); rewrite ?elem_of_snoc;
    try (left; by apply Hlive);
    try (intros [Hin|[=]]; left; by apply (Hfin t0 r0)).
  - (* submit *)
    revert Ht0. rewrite !elem_of_app, list_elem_of_singleton.
    intros [[Hin| ->]|Hin]; [left|by right|left];
      apply Hlive; rewrite elem_of_app; eauto.
  - (* start *)
    left. apply Hlive. rewrite Hq. revert Ht0. list_mem.
  - (* finish: still unfinished *)
    left. apply Hlive. rewrite Hr. revert Ht0. list_mem.
  - (* finish: the finished item *)
    intros [Hin|[= -> ->]]; left; [by apply (Hfin t0 r0)|].
    apply Hlive. rewrite Hr. list_mem.
Qed.

Lemma exec_tracked (se s : proc) (tr : list label) :
  live se = [] → exec se tr s → tracked tr s.
Proof.
  intros Hidle Hexec. induction Hexec as [|s0 tr s1 l s2 Hexec IH Hstep].
  - split; [rewrite Hidle; by intros t ?%elem_of_nil|].
    by intros t r ?%elem_of_nil.
  - eapply tracked_step; eauto.
Qed.

(** A call begins with no unfinished work item. *)
Lemma scanning_idle (se : proc) : scanning se [] se → live se = [].
Proof.
  intros Hsc. destruct (live se) as [|t l] eqn:Hl; [done|].
  destruct (sc_live _ _ _ _ _ Hsc t) as (f & _ & Hin & Hnin & _).
  - rewrite Hl. by left.
  - done.
Qed.

Lemma carried_init (se : proc) : carried se [] se.
Proof.
  constructor.
  - done.
  - done.
  - by intros _ f r _ ?%elem_of_nil.
Qed.

(** Steps that leave the world alone and finish nothing. *)
Lemma carried_quiet (se s s' : proc) (tr : list label) (l : label) :
  carried se tr s →
  p_world s' = p_world s →
  (∀ t r, l ≠ L_finish t r) →
  carried se (tr ++ [l]) s'.
Proof.
  intros [Hun Hpend Hdone] Hw Hl. constructor; rewrite Hw.
  - done.
  - intros f HfE Hf Hnf. apply Hpend; [done..|].
    intros r Hin. apply (Hnf r). apply elem_of_snoc. by left.
  - intros Hne f r HfE. rewrite elem_of_snoc.
    intros [Hin|Heq]; [by apply Hdone | by edestruct Hl].
Qed.

Lemma carried_finish (se s : proc) (tr : list label)
    (r1 r2 : list task) (t : task) (r : result unit) (w' : world) :
  scanning se tr s → tracked tr s → carried se tr s →
  p_running s = r1 ++ t :: r2 →
  _move (t_file t) (t_dest t) (p_world s) = (r, w') →
  carried se (tr ++ [L_finish t r])
    {| p_world := w'; p_clock := p_clock s; p_batch := p_batch s;
       p_main := p_main s;
       p_queue := p_queue s; p_running := r1 ++ r2;
       p_futures := p_futures s ++ [(t, r)] |}.
Proof.
  intros Hsc [Htr _] [Hun Hpend Hdone] Hr Hm.
  assert (t ∈ live s) as Hlive.
  { unfold live. rewrite Hr. list_mem. }
  destruct (sc_live _ _ _ _ _ Hsc t Hlive) as (f0 & -> & Hf0E & _ & Hf0 & Hnf0).
  destruct (sc_submitted _ _ _ _ _ Hsc _ (Htr _ Hlive))
    as (f0' & Heq & _ & Hf0e).
  apply batch_task_inj in Heq as <-.
  pose proof (sc_dest _ _ _ _ _ Hsc) as Hdest.
  pose proof (sc_entry _ _ _ _ _ Hsc) as Hentry.
  destruct (Hentry f0 Hf0E) as [n0 ->]. simpl in Hm.
  pose proof (_move_frame _ _ _ _ _ Hf0 Hdest Hm) as Hframe.
  destruct (_move_file _ _ _ Hf0 Hdest) as (nd & Hnd & _ & Hm').
  rewrite Hm in Hm'. rewrite basename_snoc in Hframe, Hm'.
  destruct (Hpend _ Hf0E Hf0e Hnf0) as [Hsrc0 Hdst0].
  rewrite basename_snoc in Hdst0.
  constructor; simpl.
  - (* everything else *)
    intros p Hvis Hnot. rewrite <- (Hun p Hvis Hnot).
    assert (p ≠ target ++ [n0]) as Hp1 by (intros ->; by apply Hnot).
    destruct (path_exists (w_fs (p_world s)) (destination ++ [n0])) eqn:Hex.
    + injection Hm' as _ ->. simpl. by rewrite lookup_delete_ne.
    + assert (p ≠ destination ++ [n0]) as Hp2.
      { intros ->. rewrite (path_exists_ext _ _ _ (Hun _ Hvis Hnot)) in Hex.
        congruence. }
      by apply Hframe.
  - (* the files still to move *)
    intros f HfE Hf Hnf. destruct (Hentry f HfE) as [n ->].
    assert (n ≠ n0) as Hn.
    { intros ->. apply (Hnf r). apply elem_of_snoc. by right. }
    destruct (Hpend _ HfE Hf) as [Hsrc Hdst].
    { intros r' Hin. apply (Hnf r'). apply elem_of_snoc. by left. }
    rewrite basename_snoc in *. split.
    + rewrite <- Hsrc. apply Hframe.
      * intros Heq%app_inj_tail. by destruct Heq.
      * intros Heq%app_inj_tail. by destruct Heq.
    + intros Hne. rewrite <- (Hdst Hne). apply Hframe.
      * intros Heq%app_inj_tail. destruct Heq. by apply Hne.
      * intros Heq%app_inj_tail. by destruct Heq.
  - (* the finished work items *)
    intros Hne f r' HfE. destruct (Hentry f HfE) as [n ->].
    rewrite basename_snoc. rewrite elem_of_snoc.
    intros [Hin|[= Heq ->]].
    + assert (n ≠ n0) as Hn.
      { intros ->. exact (Hnf0 r' Hin). }
      pose proof (Hdone Hne _ _ HfE Hin) as Hold.
      rewrite basename_snoc in Hold. unfold outcome in *.
      rewrite !Hframe; try done.
      * intros Heq%app_inj_tail. destruct Heq. by apply Hne.
      * intros Heq%app_inj_tail. by destruct Heq.
      * intros Heq%app_inj_tail. by destruct Heq.
      * intros Heq%app_inj_tail. by destruct Heq.
    + apply app_inj_tail in Heq as [_ ->]. unfold outcome.
      specialize (Hdst0 Hne).
      rewrite <- (path_exists_ext _ _ _ Hdst0).
      assert (destination ++ [n0] ≠ target ++ [n0]) as Hne'.
      { intros Heq%app_inj_tail. destruct Heq. by apply Hne. }
      destruct (path_exists (w_fs (p_world s)) (destination ++ [n0])).
      * injection Hm' as -> ->. simpl.
        rewrite lookup_delete_eq, lookup_delete_ne by done. by rewrite Hdst0.
      * destruct (os_fault (target ++ [n0]) (destination ++ [n0])).
        -- by injection Hm' as -> ->.
        -- injection Hm' as -> ->. simpl.
           rewrite lookup_insert_eq, lookup_insert_ne, lookup_delete_eq by done.
           by rewrite <- Hsrc0.
Qed.

Lemma carried_step (se s s' : proc) (tr : list label) (l : label) :
  scanning se tr s → tracked tr s → carried se tr s →
  step s l s' → in_batch l = true →
  carried se (tr ++ [l]) s'.
Proof.
  intros Hsc Htr Hca Hstep Hl.
  destruct Hstep as [s mw Hmain|s e Hmain He|s f rest Hmain Hf
    |s f rest Hmain Hf
    |s Hmain|s q1 t q2 mw Hq|s r1 t r2 r w' Hr Hm|s Hmain Hq Hr
    |s fuel slept Hmain|s Hmain]; try done;
    try (by apply (carried_quiet se s)).
  by apply carried_finish.
Qed.

Lemma exec_carried (se s : proc) (tr : list label) :
  scanning se [] se →
  exec se tr s → Forall (λ l, in_batch l = true) tr →
  scanning se tr s ∧ tracked tr s ∧ carried se tr s.
Proof.
  intros Hinit Hexec. pose proof (scanning_idle _ Hinit) as Hidle.
  induction Hexec as [|s0 tr s1 l s2 Hexec IH Hstep].
  - intros _. split; [done|]. split; [|apply carried_init].
    apply exec_tracked with (se := s); [done | constructor].
  - rewrite Forall_app, Forall_singleton. intros [Hall Hl].
    destruct (IH Hinit Hidle Hall) as (Hsc & Htr & Hca).
    split; [by eapply scanning_step|]. split; [by eapply tracked_step|].
    by eapply carried_step.
Qed.

(** The same for a call in a run of the loop. *)
Lemma batch_carried (w : world) (tr0 tr : list label) (s0 se s : proc)
    (mw : Z) :
  exec (boot w) tr0 s0 →
  step s0 (L_enter mw) se →
  isdir (w_fs w) destination = true →
  exec se tr s → Forall (λ l, in_batch l = true) tr →
  scanning se tr s ∧ tracked tr s ∧ carried se tr s ∧
  entries se = glob (w_fs (p_world se)) target.
Proof.
  intros Hexec0 Henter Hd Hexec Hall.
  destruct (batch_scanning _ _ _ _ _ _ _ _ _ _ _ Hexec0 Henter Hd
              (exec_nil _ _ _ _ se) (Forall_nil_2 _)) as (Hinit & _ & _ & HE).
  destruct (exec_carried _ _ _ Hinit Hexec Hall) as (? & ? & ?).
  done.
Qed.

End Carried.

Lemma scenario_enter :
  @step reliable ["src"] ["dst"] None None
    (boot scenario) (L_enter 8) scenario_entered.
Proof. apply step_fn_sound. vm_compute. reflexivity. Qed.

Lemma scenario_batch_run :
  @exec reliable ["src"] ["dst"] None None
    scenario_entered scenario_batch scenario_done.
Proof. apply replay_sound. vm_compute. reflexivity. Qed.

Lemma scenario_batch_in_batch :
  Forall (λ l, in_batch l = true) scenario_batch.
Proof. repeat constructor. Qed.

Lemma two_files_refused_enter :
  @step read_only ["src"] ["dst"] (Some 2) None
    (boot two_files) (L_enter 2) two_files_entered.
Proof. apply step_fn_sound. vm_compute. reflexivity. Qed.

Lemma two_files_refused_run :
  @exec read_only ["src"] ["dst"] (Some 2) None
    two_files_entered two_files_refused_batch two_files_refused.
Proof. apply replay_sound. vm_compute. reflexivity. Qed.

Lemma elem_of_glob_concrete (fs : filesystem) (d : path) (n : string) :
  isdir fs d = true → is_Some (fs !! (d ++ [n])) → d ++ [n] ∈ glob fs d.
Proof. intros Hd Hl. apply elem_of_glob. eauto. Qed.









(** ** The call as a whole, the pool, the waits and the start-up *)

Section Whole.
Context `{Platform}.
Variables (target destination : path) (threads seconds : option Z).

Local Abbreviation step := (step target destination threads seconds).
Local Abbreviation exec := (exec target destination threads seconds).

(** With nothing to submit the call is inert. *)
Lemma exec_inert (se s : proc) (tr : list label) :
  live se = [] →
  (∀ f, f ∈ entries se → isfile (w_fs (p_world se)) f = false) →
  exec se tr s → Forall (λ l, in_batch l = true) tr →
  p_world s = p_world se ∧ p_futures s = p_futures se ∧ live s = [] ∧
  (∀ f, f ∈ entries s → f ∈ entries se) ∧
  (∀ t, L_submit t ∉ tr) ∧ (∀ t r, L_finish t r ∉ tr).
Proof.
  intros Hidle Hnone Hexec.
  induction Hexec as [|s0 tr s1 l s2 Hexec IH Hstep].
  - intros _. repeat split; try done; by intros ? ?%elem_of_nil
      || by intros ? ? ?%elem_of_nil.
  - rewrite Forall_app, Forall_singleton. intros [Hall Hl].
    destruct (IH Hidle Hnone Hall) as (Hw & Hfut & Hlive & Hsub & Hns & Hnf).
    unfold live in Hlive. apply app_eq_nil in Hlive as [Hq Hr].
    assert (∀ t, L_submit t ∈ tr ++ [l] → l = L_submit t) as Hns'.
    { intros t [Hin| ->]%elem_of_snoc; [by destruct (Hns t)|done]. }
    assert (∀ t r, L_finish t r ∈ tr ++ [l] → l = L_finish t r) as Hnf'.
    { intros t r [Hin| ->]%elem_of_snoc; [by destruct (Hnf t r)|done]. }
    destruct Hstep as [s mw Hmain|s e Hmain He|s f rest Hmain Hf
      |s f rest Hmain Hf
      |s Hmain|s q1 t q2 mw Hq'|s r1 t r2 r w' Hr' Hm|s Hmain Hq' Hr'
      |s fuel slept Hmain|s Hmain]; try done; unfold live; simpl.
    + (* skip *)
      repeat split; try done; try (by rewrite Hq, Hr).
      * intros f' Hf'. apply Hsub. unfold entries. rewrite Hmain. by right.
      * intros t Hin. by apply Hns' in Hin.
      * intros t r Hin. by apply Hnf' in Hin.
    + (* submit: impossible *)
      exfalso. rewrite Hw in Hf.
      rewrite Hnone in Hf; [done|].
      apply Hsub. unfold entries. rewrite Hmain. by left.
    + (* exhausted *)
      repeat split; try done; try (by rewrite Hq, Hr).
      * by intros f' ?%elem_of_nil.
      * intros t Hin. by apply Hns' in Hin.
      * intros t r Hin. by apply Hnf' in Hin.
    + (* start: impossible *)
      rewrite Hq in Hq'. by destruct q1.
    + (* finish: impossible *)
      rewrite Hr in Hr'. by destruct r1.
    + (* return *)
      repeat split; try done; try (by rewrite Hq, Hr).
      * by intros f' ?%elem_of_nil.
      * intros t Hin. by apply Hns' in Hin.
      * intros t r Hin. by apply Hnf' in Hin.
Qed.

(** The main thread of a call stays in the call. *)
Lemma in_batch_main (se s : proc) (tr : list label) :
  exec se tr s → Forall (λ l, in_batch l = true) tr →
  (∃ rest, p_main se = Filtering rest) ∨ p_main se = Shutdown
    ∨ p_main se = Waiting →
  (∃ rest, p_main s = Filtering rest) ∨ p_main s = Shutdown
    ∨ p_main s = Waiting.
Proof.
  induction 1 as [|s0 tr s1 l s2 Hexec IH Hstep]; [done|].
  rewrite Forall_app, Forall_singleton. intros [Hall Hl] Hse.
  specialize (IH Hall Hse).
  destruct Hstep as [s mw Hmain|s e Hmain He|s f rest Hmain Hf
    |s f rest Hmain Hf
    |s Hmain|s q1 t q2 mw Hq'|s r1 t r2 r w' Hr' Hm|s Hmain Hq' Hr'
    |s fuel slept Hmain|s Hmain]; try done; simpl; eauto.
Qed.

End Whole.

(** X5. A source without regular files is left alone.  When nothing the
    call lists in the source is a regular file (the directory is empty,
    holds only subdirectories, links to directories or special files, or
    is not a directory at all) no work item is ever submitted or run, and
    the filesystem, the log and the futures stay as they were, whatever
    the destination. *)
Theorem nothing_to_move_changes_nothing `{Platform}
    (target destination : path) (threads seconds : option Z)
    (w : world) (tr0 tr : list label) (s0 se s : proc) (mw : Z) :
  exec target destination threads seconds (boot w) tr0 s0 →
  step target destination threads seconds s0 (L_enter mw) se →
  exec target destination threads seconds se tr s →
  Forall (λ l, in_batch l = true) tr →
  (∀ f, f ∈ glob (w_fs (p_world se)) target →
        isfile (w_fs (p_world se)) f = false) →
  p_world s = p_world se ∧ p_futures s = p_futures se ∧
  (∀ t, L_submit t ∉ tr) ∧ (∀ t r, L_finish t r ∉ tr).
Proof.
  intros Hexec0 Henter Hexec Hall Hnone.
  pose proof (exec_isolated _ _ _ _ _ _ _ Hexec0) as [_ Hidle].
  assert (live se = [] ∧ entries se = glob (w_fs (p_world se)) target)
    as [Hlive HE].
  { inversion Henter as [s1 mw' Hmain Hmw| | | | | | | | |]; subst.
    split; [|done]. apply Hidle. by left. }
  rewrite <- HE in Hnone.
  destruct (exec_inert _ _ _ _ _ _ _ Hlive Hnone Hexec Hall)
    as (? & ? & _ & _ & ? & ?).
  done.
Qed.

Lemma nothing_to_move_changes_nothing_witness :
  @step reliable ["dst"] ["src"] None None
    (boot two_files) (L_enter 8) empty_source_entered ∧
  @exec reliable ["dst"] ["src"] None None empty_source_entered
    [L_exhausted; L_return] (set_main empty_source_entered Waiting) ∧
  glob (w_fs two_files) ["dst"] = [] ∧
  p_world (set_main empty_source_entered Waiting) = two_files.
Proof.
  assert (@step reliable ["dst"] ["src"] None None
            (boot two_files) (L_enter 8) empty_source_entered) as Henter
    by (apply step_fn_sound; vm_compute; reflexivity).
  assert (@exec reliable ["dst"] ["src"] None None empty_source_entered
            [L_exhausted; L_return] (set_main empty_source_entered Waiting))
    as Hexec by (apply replay_sound; vm_compute; reflexivity).
  split; [exact Henter|]. split; [exact Hexec|].
  split; [vm_compute; reflexivity|].
  apply (@nothing_to_move_changes_nothing reliable ["dst"] ["src"] None None
           two_files [] [L_exhausted; L_return] (boot two_files)
           empty_source_entered (set_main empty_source_entered Waiting) 8).
  - constructor.
  - exact Henter.
  - exact Hexec.
  - repeat constructor.
  - intros f Hf. vm_compute in Hf. by apply elem_of_nil in Hf.
Defined.

(** X6. A call of [cmove] returns under every schedule.  However the
    workers and the main thread interleave, the steps of the call number
    at most three per listed entry plus two, and as long as the call has
    not returned one of its steps is enabled: it can neither deadlock nor
    go on for ever. *)
Theorem cmove_returns_under_every_schedule `{Platform}
    (target destination : path) (threads seconds : option Z)
    (w : world) (tr0 tr : list label) (s0 se s : proc) (mw : Z) :
  exec target destination threads seconds (boot w) tr0 s0 →
  step target destination threads seconds s0 (L_enter mw) se →
  exec target destination threads seconds se tr s →
  Forall (λ l, in_batch l = true) tr →
  (length tr ≤ 3 * length (glob (w_fs (p_world se)) target) + 2)%nat ∧
  (p_main s = Waiting ∨
   ∃ l s', step target destination threads seconds s l s' ∧
           in_batch l = true).
Proof.
  intros Hexec0 Henter Hexec Hall.
  pose proof (exec_isolated _ _ _ _ _ _ _ Hexec0) as [_ Hidle].
  assert (exec target destination threads seconds (boot w)
            ((tr0 ++ [L_enter mw]) ++ tr) s) as Hfull.
  { eapply exec_app; [|exact Hexec]. by eapply exec_snoc. }
  pose proof (exec_isolated _ _ _ _ _ _ _ Hfull) as Hiso.
  pose proof (in_batch_bounded _ _ _ _ _ _ _ Hexec Hall) as Hbound.
  inversion Henter as [s1 mw' Hmain Hmw| | | | | | | | |]; subst.
  assert (live s0 = []) as Hlive by (apply Hidle; by left).
  apply app_eq_nil in Hlive as [Hq Hr].
  split.
  - unfold remaining in Hbound at 2. simpl in Hbound.
    rewrite Hq, Hr in Hbound. simpl in *. lia.
  - destruct (in_batch_main _ _ _ _ _ _ _ Hexec Hall) as [Hf|[Hs|Hw]].
    + left. by eexists.
    + right. eapply in_batch_progress; eauto.
    + right. eapply in_batch_progress; eauto.
    + by left.
Qed.

Lemma cmove_returns_under_every_schedule_witness :
  @exec reliable ["src"] ["dst"] (Some 2) None
    two_files_entered (two_files_batch ++ [L_return])
    (set_main two_files_drained Waiting) ∧
  (length (two_files_batch ++ [L_return]) ≤ 3 * 2 + 2)%nat.
Proof.
  split; [exact two_files_batch_run|].
  destruct (@cmove_returns_under_every_schedule reliable ["src"] ["dst"]
              (Some 2) None two_files [] (two_files_batch ++ [L_return])
              (boot two_files) two_files_entered
              (set_main two_files_drained Waiting) 2) as [Hlen _].
  - constructor.
  - exact two_files_enter.
  - exact two_files_batch_run.
  - repeat constructor.
  - exact Hlen.
Defined.

(** X7. An explicit positive worker count is the bound of the pool: with
    [threads = n] and [n >= 1] no run crashes, every call enters its
    batch, and never more than [n] work items run at once. *)
Theorem explicit_threads_bound_the_pool `{Platform}
    (target destination : path) (seconds : option Z) (n : Z)
    (w : world) (tr : list label) (s : proc) :
  1 ≤ n →
  exec target destination (Some n) seconds (boot w) tr s →
  Z.of_nat (length (p_running s)) ≤ n ∧
  (∀ e, L_crash e ∉ tr) ∧
  (p_main s = LoopTop →
   ∃ s', step target destination (Some n) seconds s (L_enter n) s').
Proof.
  intros Hn Hexec.
  assert (ThreadPoolExecutor (Some n) = Ret n) as Hmw.
  { unfold ThreadPoolExecutor. destruct (Z.leb_spec n 0); [lia | done]. }
  split; [by eapply exec_bounded|]. split.
  - revert tr s Hexec.
    apply (exec_invariant target destination (Some n) seconds
             (λ tr _, ∀ e, L_crash e ∉ tr)).
    + intros e. apply not_elem_of_nil.
    + intros tr s l s' _ IH Hstep e.
      rewrite elem_of_app, list_elem_of_singleton. intros [Hin|Heq].
      * by apply (IH e).
      * subst l. inversion Hstep; subst. congruence.
  - intros Hmain. eexists. by apply step_enter.
Qed.

Lemma explicit_threads_bound_the_pool_witness :
  (1 ≤ 2) ∧
  @exec reliable ["src"] ["dst"] (Some 2) None (boot two_files)
    [ L_enter 2; L_submit task_b; L_start task_b; L_submit task_a;
      L_start task_a ]
    two_files_in_flight ∧
  Z.of_nat (length (p_running two_files_in_flight)) ≤ 2.
Proof.
  assert (@exec reliable ["src"] ["dst"] (Some 2) None (boot two_files)
    [ L_enter 2; L_submit task_b; L_start task_b; L_submit task_a;
      L_start task_a ] two_files_in_flight) as Hexec
    by (apply replay_sound; vm_compute; reflexivity).
  split; [lia|]. split; [exact Hexec|].
  destruct (@explicit_threads_bound_the_pool reliable ["src"] ["dst"] None 2
              two_files _ two_files_in_flight ltac:(lia) Hexec) as [Hb _].
  exact Hb.
Defined.

(** The loop of [wait] gives one result, whatever the fuel. *)
Lemma wait_loop_result (fuel : nat) (tot c slept r : Z) :
  wait_loop fuel {| total := tot; completed := c; finished_time := None |}
    slept = Some r →
  r = slept + Z.max 1 (tot - c).
Proof.
  revert c slept. induction fuel as [|fuel IH]; intros c slept; [done|].
  rewrite wait_loop_S. unfold finished at 1, update.
  cbn [total completed finished_time].
  rewrite bool_decide_eq_false_2 by (by intros [? ?]).
  destruct (Z.leb_spec tot (c + 1)) as [Hle|Hgt].
  - destruct fuel as [|fuel]; [done|]. rewrite wait_loop_S.
    unfold finished. cbn [finished_time].
    rewrite bool_decide_eq_true_2 by eauto. intros [= <-]. lia.
  - intros Hr. apply IH in Hr. lia.
Qed.

Lemma wait_result (fuel : nat) (seconds : option Z) (slept : Z) :
  wait fuel seconds = Some slept → slept = duration seconds.
Proof.
  unfold wait, duration.
  destruct seconds as [n|]; cbn [truthy default negb];
    [|by intros [= <-]].
  destruct (n =? 0); cbn [negb]; [by intros [= <-]|].
  unfold add_task. intros Hr%wait_loop_result. lia.
Qed.

(** X8. [wait] sleeps for the interval, one second at a time: it returns
    after exactly [seconds] one-second sleeps when [seconds] is positive,
    after exactly one when [seconds] is negative, and without sleeping
    when it is zero or unset; it always returns. *)
Theorem wait_sleeps_for_the_interval (seconds : option Z) :
  (∀ fuel slept, wait fuel seconds = Some slept → slept = duration seconds) ∧
  wait (S (S (Z.to_nat (default 0 seconds)))) seconds
    = Some (duration seconds) ∧
  duration seconds =
    match seconds with
    | None => 0
    | Some n => if decide (n = 0) then 0 else Z.max 1 n
    end.
Proof.
  split; [|split].
  - intros fuel slept. apply wait_result.
  - unfold wait, duration.
    destruct seconds as [n|]; cbn [truthy default negb]; [|done].
    destruct (n =? 0); cbn [negb]; [done|].
    unfold add_task. rewrite wait_loop_unfinished by lia. f_equal. lia.
  - unfold duration. destruct seconds as [n|]; [|done]. simpl.
    destruct (decide (n = 0)) as [->|Hn]; [done|].
    by rewrite (proj2 (Z.eqb_neq n 0) Hn).
Qed.

Lemma wait_count_snoc (tr : list label) (l : label) :
  length (filter (λ l, is_wait l = true) (tr ++ [l]))
  = (length (filter (λ l, is_wait l = true) tr)
     + if is_wait l then 1 else 0)%nat.
Proof.
  rewrite filter_app, length_app. f_equal.
  destruct (is_wait l) eqn:Hl.
  - by rewrite filter_cons_True.
  - rewrite filter_cons_False; [done|]. by rewrite Hl.
Qed.

(** X9. Between two scans the loop sleeps exactly one interval: every
    wait of a run lasts [duration seconds], and the time the process has
    slept in all is that interval times the number of waits completed. *)
Theorem loop_sleeps_one_interval_per_scan `{Platform}
    (target destination : path) (threads seconds : option Z)
    (w : world) (tr : list label) (s : proc) :
  exec target destination threads seconds (boot w) tr s →
  (∀ slept, L_wait slept ∈ tr → slept = duration seconds) ∧
  p_clock s =
    duration seconds * Z.of_nat (length (filter (λ l, is_wait l = true) tr)).
Proof.
  revert tr s.
  apply (exec_invariant target destination threads seconds
    (λ tr s, (∀ slept, L_wait slept ∈ tr → slept = duration seconds) ∧
       p_clock s = duration seconds *
         Z.of_nat (length (filter (λ l, is_wait l = true) tr)))).
  - split; [by intros ? ?%elem_of_nil | simpl; lia].
  - intros tr s l s' _ [Hall Hclock] Hstep.
    rewrite wait_count_snoc.
    destruct Hstep as [s mw Hmain|s e Hmain He|s f rest Hmain Hf
      |s f rest Hmain Hf
      |s Hmain|s q1 t q2 mw Hq'|s r1 t r2 r w' Hr' Hm|s Hmain Hq' Hr'
      |s fuel slept Hmain Hwait|s Hmain]; cbn [is_wait p_clock set_main];
      (split; [intros sl [Hin|Heq]%elem_of_snoc; [by apply Hall|]
              | rewrite ?Hclock, ?Nat.add_0_r]); try done.
    + injection Heq as ->.
      by apply (wait_result fuel).
    + rewrite (wait_result fuel seconds slept Hwait).
      rewrite Nat2Z.inj_add. lia.
Qed.

Lemma loop_sleeps_one_interval_per_scan_witness :
  @exec reliable ["dst"] ["src"] None (Some 3) (boot two_files)
    [L_enter 8; L_exhausted; L_return; L_wait 3; L_enter 8]
    {| p_world := two_files; p_clock := 3; p_batch := 2;
       p_main := Filtering []; p_queue := []; p_running := [];
       p_futures := [] |} ∧
  duration (Some 3) = 3.
Proof.
  assert (@exec reliable ["dst"] ["src"] None (Some 3) (boot two_files)
    [L_enter 8; L_exhausted; L_return; L_wait 3; L_enter 8]
    {| p_world := two_files; p_clock := 3; p_batch := 2;
       p_main := Filtering []; p_queue := []; p_running := [];
       p_futures := [] |}) as Hexec
    by (apply replay_sound; vm_compute; reflexivity).
  split; [exact Hexec|].
  destruct (@loop_sleeps_one_interval_per_scan reliable ["dst"] ["src"] None
              (Some 3) two_files _ _ Hexec) as [Hall _].
  symmetry. apply Hall. do 3 right. left.
Defined.

(** ** The log and the exit status *)

Section Records.
Context `{Platform}.

Lemma os_rename_log (src dst : path) (w w' : world) (r : result unit) :
  os_rename src dst w = (r, w') → w_log w' = w_log w.
Proof.
  unfold os_rename. unfold_M. simpl.
  repeat case_match; intros [= <- <-]; done.
Qed.

Lemma shutil_move_log (src dst : path) (w w' : world) (r : result path) :
  shutil_move src dst w = (r, w') → w_log w' = w_log w.
Proof.
  unfold shutil_move. unfold mbind, M_bind, bind at 1, get_fs.
  repeat case_match; try (by intros [= <- <-]);
    unfold bind, mret, M_ret, ret;
    match goal with |- context [os_rename ?a ?b ?c] =>
      destruct (os_rename a b c) as [[[]|e] w1] eqn:Hrn
    end; intros [= <- <-]; by eapply os_rename_log.
Qed.

Lemma os_remove_log (file : path) (w w' : world) (r : result unit) :
  os_remove file w = (r, w') → w_log w' = w_log w.
Proof.
  unfold os_remove. unfold_M. simpl.
  repeat case_match; intros [= <- <-]; done.
Qed.

(** What one work item logs: nothing and it raises; or that the file was
    moved, and it returns; or that the file already exists, before the
    removal. *)
Lemma _move_record (file dest : path) (w w' : world) (r : result unit) :
  _move file dest w = (r, w') →
  (w_log w' = w_log w ∧ ∃ e, r = Raise e) ∨
  (w_log w' = w_log w ++
     [{| levelno := INFO; msg := moved_to_destination file dest |}] ∧
   r = Ret tt) ∨
  (w_log w' = w_log w ++
     [{| levelno := WARNING; msg := already_exist_in_destination file |}]).
Proof.
  unfold _move, try_except.
  unfold mbind, M_bind, bind, log_info, log_warning, emit.
  destruct (shutil_move file dest w) as [[p|e] w1] eqn:Hmv;
    pose proof (shutil_move_log _ _ _ _ _ Hmv) as Hlog.
  - intros [= <- <-]. right; left. simpl. by rewrite Hlog.
  - destruct (is_shutil_Error e).
    + match goal with |- context [os_remove file ?w2] =>
        destruct (os_remove file w2) as [r2 w3] eqn:Hrm
      end.
      apply os_remove_log in Hrm. simpl in Hrm.
      intros Heq. assert (w' = w3) as -> by (destruct r2; congruence).
      right; right. by rewrite Hrm, Hlog.
    + intros [= <- <-]. left. split; [done|]. by exists e.
Qed.

End Records.

Lemma elem_of_snoc_list {A} (l : list A) (x y : A) :
  y ∈ l ++ [x] ↔ y ∈ l ∨ y = x.
Proof. by rewrite elem_of_app, list_elem_of_singleton. Qed.

Lemma returned_count_snoc (l : list (task * result unit))
    (fr : task * result unit) :
  length (filter (λ fr, returned fr = true) (l ++ [fr]))
  = (length (filter (λ fr, returned fr = true) l)
     + if returned fr then 1 else 0)%nat.
Proof.
  rewrite filter_app, length_app. f_equal.
  destruct (returned fr) eqn:Hl.
  - by rewrite filter_cons_True.
  - rewrite filter_cons_False; [done|]. by rewrite Hl.
Qed.


Lemma scenario_run :
  @exec reliable ["src"] ["dst"] None None
    (boot scenario) (L_enter 8 :: scenario_batch) scenario_done.
Proof. apply replay_sound. vm_compute. reflexivity. Qed.



(** How the head of [main] fails. *)
Lemma main_head_raise (av : argv) (w w' : world) (e : exn) :
  main_head av w = (Raise e, w') →
  (e = SystemExit (Some 2) ∧
   (a_target av = None ∨ a_destination av = None)) ∨
  (e = SystemExit None ∧
   ∃ t d, a_target av = Some t ∧ a_destination av = Some d ∧
     (isdir (w_fs w) t = false ∨ isdir (w_fs w) d = false)).
Proof.
  unfold main_head, parse_args, dir_validator. unfold_M. simpl.
  destruct (a_target av) as [t|] eqn:Ht; simpl;
    [|intros [= <- <-]; left; eauto].
  destruct (isdir (w_fs w) t) eqn:Hit; simpl;
    (destruct (a_destination av) as [d|] eqn:Hd; simpl;
     [destruct (isdir (w_fs w) d) eqn:Hid; simpl|]);
    try done; intros [= <- <-];
    first [ left; split; [done|]; by right
          | right; split; [done|]; exists t, d; eauto ].
Qed.

Lemma main_head_ret (av : argv) (w w' : world) (args : Namespace) :
  main_head av w = (Ret args, w') →
  threads args = a_threads av ∧ sleep args = a_sleep av ∧
  target args = a_target av ∧ destination args = a_destination av ∧ w' = w.
Proof.
  unfold main_head, parse_args, dir_validator. unfold_M. simpl.
  destruct (a_target av) as [t|] eqn:Ht; simpl; [|done].
  destruct (isdir (w_fs w) t) eqn:Hit; simpl;
    (destruct (a_destination av) as [d|] eqn:Hd; simpl;
     [destruct (isdir (w_fs w) d) eqn:Hid; simpl|]);
    try done.
  intros [= <- <-]. by destruct w.
Qed.

Section ExitStatus.
Context `{Platform}.

(** How the loop ends. *)
Lemma exec_exit_status (target destination : path)
    (threads seconds : option Z) (w : world) (tr : list label) (s : proc)
    (status : Z) :
  exec target destination threads seconds (boot w) tr s →
  p_main s = Exited status →
  (status = 0 ∧ L_interrupt ∈ tr) ∨
  (status = 1 ∧ ∃ n, threads = Some n ∧ n ≤ 0).
Proof.
  intros Hexec. revert status. revert tr s Hexec.
  apply (exec_invariant target destination threads seconds
    (λ tr s, ∀ status, p_main s = Exited status →
       (status = 0 ∧ L_interrupt ∈ tr) ∨
       (status = 1 ∧ ∃ n, threads = Some n ∧ n ≤ 0))); [done|].
  intros tr s l s' _ IH Hstep status.
  assert (p_main s = Exited status →
          (status = 0 ∧ L_interrupt ∈ tr ++ [l]) ∨
          (status = 1 ∧ ∃ n, threads = Some n ∧ n ≤ 0)) as Hold.
  { intros Hmain. destruct (IH _ Hmain) as [[-> Hin]|[-> Hn]].
    - left. split; [done|]. apply elem_of_app. by left.
    - by right. }
  destruct Hstep as [s mw Hmain|s e Hmain He|s f rest Hmain|s f rest Hmain
    |s Hmain|s q1 t q2 mw Hq|s r1 t r2 r w' Hr|s Hmain Hq Hr
    |s fuel slept Hmain|s Hmain]; simpl; try done.
  - intros [= <-]. right.
    destruct (ThreadPoolExecutor_Raise _ _ He) as [-> Hn]. done.
  - intros [= <-]. left. split; [done|].
    apply elem_of_app. right. by left.
Qed.

End ExitStatus.



(** The log of the loop extends the log it began with, by records below
    ERROR. *)
Lemma exec_log_prefix `{Platform}
    (target destination : path) (threads seconds : option Z)
    (w : world) (tr : list label) (s : proc) :
  exec target destination threads seconds (boot w) tr s →
  ∃ new, w_log (p_world s) = w_log w ++ new ∧
    ∀ rec, rec ∈ new → levelno rec ≠ ERROR.
Proof.
  revert tr s.
  apply (exec_invariant target destination threads seconds
    (λ _ s, ∃ new, w_log (p_world s) = w_log w ++ new ∧
       ∀ rec, rec ∈ new → levelno rec ≠ ERROR)).
  - exists []. split; [by rewrite app_nil_r | by intros ? ?%elem_of_nil].
  - intros tr s l s' _ (new & Hlog & Hnew) Hstep.
    destruct Hstep as [s mw Hmain|s e Hmain He|s f rest Hmain Hf
      |s f rest Hmain Hf
      |s Hmain|s q1 t q2 mw Hq'|s r1 t r2 r w' Hr' Hm|s Hmain Hq' Hr'
      |s fuel slept Hmain Hwait|s Hmain]; simpl; try (by exists new).
    destruct (_move_log _ _ _ _ _ Hm) as (new' & Hlog' & Hnew').
    exists (new ++ new'). rewrite Hlog', Hlog. split; [by rewrite (assoc_L (++))|].
    intros rec [Hin|Hin]%elem_of_app; eauto.
Qed.

(** X13. With [-qq] the loop shows nothing.  The loop logs below ERROR
    only, so once [quiet] is 2 or more, which sets the logger to ERROR,
    no record of the loop reaches a handler, the refused moves included;
    with [quiet] 0 every record does. *)
Theorem quiet_twice_silences_the_loop `{Platform}
    (target destination : path) (threads seconds : option Z)
    (w : world) (tr : list label) (s : proc) (q : nat) :
  exec target destination threads seconds (boot w) tr s →
  (2 ≤ q)%nat →
  handled q (w_log (p_world s)) = handled q (w_log w) ∧
  handled 0 (w_log (p_world s)) = w_log (p_world s).
Proof.
  intros Hexec Hq.
  destruct (exec_log_prefix target destination threads seconds w tr s Hexec)
    as (new & Hlog & Hnew).
  split.
  - rewrite Hlog. unfold handled. rewrite filter_app.
    assert (filter (λ rec, (severity (setLevel q) ≤ severity (levelno rec))%nat)
              new = []) as ->; [|by rewrite app_nil_r].
    assert (setLevel q = ERROR) as -> by (by destruct q as [|[|q]]; [lia..|]).
    clear Hlog. induction new as [|rec new IH]; [done|].
    rewrite filter_cons_False.
    + apply IH. intros rec' Hin. apply Hnew. by right.
    + assert (levelno rec ≠ ERROR) as Hne by (apply Hnew; by left).
      destruct (levelno rec); simpl; [lia | lia | done].
  - unfold handled. generalize (w_log (p_world s)). intros l.
    induction l as [|rec l IH]; [done|].
    rewrite filter_cons_True; [by rewrite IH|].
    destruct (levelno rec); simpl; lia.
Qed.

Lemma quiet_twice_silences_the_loop_witness :
  @exec reliable ["src"] ["dst"] None None
    (boot scenario) (L_enter 8 :: scenario_batch) scenario_done ∧
  (2 ≤ 2)%nat ∧
  handled 2 (w_log (p_world scenario_done)) = [].
Proof.
  split; [exact scenario_run|]. split; [lia|].
  destruct (@quiet_twice_silences_the_loop reliable ["src"] ["dst"] None None
              scenario _ _ 2%nat scenario_run) as [Hq _]; [lia|].
  exact Hq.
Defined.

(** ** The source as its own destination *)

Section Home.
Context `{Platform}.
Variables (target : path) (threads seconds : option Z).

Local Abbreviation step := (step target target threads seconds).
Local Abbreviation exec := (exec target target threads seconds).

Lemma wiped_step (se s s' : proc) (tr : list label) (l : label) :
  scanning target target se tr s → tracked tr s →
  carried target target se tr s → wiped target se tr s →
  step s l s' → in_batch l = true →
  wiped target se (tr ++ [l]) s'.
Proof.
  intros Hsc [Htr _] Hca Hwi Hstep Hl.
  destruct Hstep as [s mw Hmain|s e Hmain He|s f rest Hmain Hf
    |s f rest Hmain Hf
    |s Hmain|s q1 t q2 mw Hq|s r1 t r2 r w' Hr Hm|s Hmain Hq Hr
    |s fuel slept Hmain|s Hmain]; try done;
    try (intros f' r' Hf'E [Hin|[=]]%elem_of_snoc; by apply Hwi).
  (* finish *)
  assert (t ∈ live s) as Hlive.
  { unfold live. rewrite Hr. list_mem. }
  destruct (sc_live _ _ _ _ _ Hsc t Hlive) as (f0 & -> & Hf0E & _ & Hf0 & Hnf0).
  pose proof (sc_dest _ _ _ _ _ Hsc) as Hdest.
  destruct (sc_entry _ _ _ _ _ Hsc f0 Hf0E) as [n0 ->]. simpl in Hm.
  pose proof (_move_frame _ _ _ _ _ Hf0 Hdest Hm) as Hframe.
  destruct (_move_file _ _ _ Hf0 Hdest) as (nd & Hnd & _ & Hm').
  rewrite Hm in Hm'. rewrite basename_snoc in Hframe, Hm'.
  rewrite (isfile_exists _ _ Hf0) in Hm'. injection Hm' as -> ->.
  intros f r' HfE [Hin|[= Heq ->]]%elem_of_snoc; simpl.
  - destruct (Hwi f r' HfE Hin) as [-> Hgone]. split; [done|].
    rewrite lookup_delete_ne; [done|].
    intros <-. exact (Hnf0 _ Hin).
  - subst f. split; [done|]. by rewrite lookup_delete_eq.
Qed.

Lemma exec_wiped (se s : proc) (tr : list label) :
  scanning target target se [] se →
  exec se tr s → Forall (λ l, in_batch l = true) tr →
  wiped target se tr s.
Proof.
  intros Hinit Hexec.
  induction Hexec as [|s0 tr s1 l s2 Hexec IH Hstep].
  - by intros _ f r _ ?%elem_of_nil.
  - rewrite Forall_app, Forall_singleton. intros [Hall Hl].
    destruct (exec_carried _ _ _ _ _ _ _ Hinit Hexec Hall)
      as (Hsc & Htr & Hca).
    eapply wiped_step; eauto.
Qed.

End Home.


